(** * Browsing-level bit flags (shared/constants/browsingLevel.constants.ts)

    A shallow embedding of the browsing-level codec: content-rating ranks
    are combined into one integer mask, masks are decoded back into the
    ranks they hold, and a legacy five-value rating is translated to and
    from the masks.

    JavaScript numbers that hold masks and levels are modelled as [Z];
    an optional number ([number | undefined]) is an [option Z]; the object
    literal used as a lookup table is a [gmap Z _] filled by successive
    inserts, in the order in which the literal lists its keys. *)

From stdpp Require Import base numbers list strings gmap.

Local Open Scope Z_scope.

(** ** The enumerations *)

(** [enum NsfwLevel] of [~/server/common/enums]: its six members.  The
    numeric value of a member is not part of this file, see [value] below. *)
Module NsfwLevel.
Inductive t : Set := PG | PG13 | R | X | XXX | Blocked.

#[global] Instance eq_dec : EqDecision t.
Proof. solve_decision. Defined.
End NsfwLevel.

(** [enum NsfwLevelDeprecated], lines 69-75. *)
Module NsfwLevelDeprecated.
Inductive t : Set := None | Soft | Mature | X | Blocked.

#[global] Instance eq_dec : EqDecision t.
Proof. solve_decision. Defined.
End NsfwLevelDeprecated.

(** The usual assignment of bit positions, PG = 1, PG13 = 2, R = 4, X = 8,
    XXX = 16 and Blocked = 32; it is used to instantiate the development. *)
Definition usual_bit (l : NsfwLevel.t) : nat :=
  match l with
  | NsfwLevel.PG => 0
  | NsfwLevel.PG13 => 1
  | NsfwLevel.R => 2
  | NsfwLevel.X => 3
  | NsfwLevel.XXX => 4
  | NsfwLevel.Blocked => 5
  end%nat.

Section BrowsingLevel.

(** The values of [NsfwLevel] are declared outside this file.  They are
    taken as a parameter: every member owns one bit position, and its
    value is that power of two. *)
Variable bit : NsfwLevel.t → nat.

(** Modelled from the spec: the numeric values of [enum NsfwLevel]
    ([~/server/common/enums]), "each rank must correspond to a distinct
    power of two". *)
Definition value (l : NsfwLevel.t) : Z := 2 ^ Z.of_nat (bit l).

(** The five combinable ranks, in the fixed enumeration order. *)
Definition ranks : list NsfwLevel.t :=
  [NsfwLevel.PG; NsfwLevel.PG13; NsfwLevel.R; NsfwLevel.X; NsfwLevel.XXX].

(** ** The [Flags] helper *)

(** Modelled from the spec: [Flags.instanceToArray] ([~/shared/utils]),
    "returns every Level in the fixed enumeration order whose bit is set
    in the mask"; it "only inspects bit positions assigned to the five
    combinable ranks". *)
Definition Flags_instanceToArray (instance : Z) : list Z :=
  value <$> filter (λ l, Z.testbit instance (Z.of_nat (bit l)) = true) ranks.

(** Modelled from the spec: [Flags.arrayToInstance] ([~/shared/utils]),
    "returns the bitwise OR of the bit value of each level"; the empty
    sequence gives mask 0. *)
Definition Flags_arrayToInstance (flags : list Z) : Z :=
  foldl Z.lor 0 flags.

(** Modelled from the spec: [Flags.intersects] ([~/shared/utils]), "true
    iff the bitwise AND of the two masks is non-zero". *)
Definition Flags_intersects (instance flag : Z) : bool :=
  negb (Z.land instance flag =? 0).

(** ** browsingLevel.constants.ts *)

(** Lines 4-6. *)
Definition parseBitwiseBrowsingLevel (level : Z) : list Z :=
  Flags_instanceToArray level.

(** Lines 8-10. *)
Definition flagifyBrowsingLevel (levels : list Z) : Z :=
  Flags_arrayToInstance levels.

(** Lines 14-20. *)
Definition browsingLevels : list Z :=
  [ value NsfwLevel.PG;
    value NsfwLevel.PG13;
    value NsfwLevel.R;
    value NsfwLevel.X;
    value NsfwLevel.XXX ].

(** Lines 40-41. *)
Definition publicBrowsingLevelsArray : list Z := [value NsfwLevel.PG].
Definition publicBrowsingLevelsFlag : Z :=
  flagifyBrowsingLevel publicBrowsingLevelsArray.

(** Lines 43-44. *)
Definition sfwBrowsingLevelsArray : list Z :=
  [value NsfwLevel.PG; value NsfwLevel.PG13].
Definition sfwBrowsingLevelsFlag : Z :=
  flagifyBrowsingLevel sfwBrowsingLevelsArray.

(** Lines 47-48. *)
Definition nsfwBrowsingLevelsArray : list Z :=
  [value NsfwLevel.R; value NsfwLevel.X; value NsfwLevel.XXX].
Definition nsfwBrowsingLevelsFlag : Z :=
  flagifyBrowsingLevel nsfwBrowsingLevelsArray.

(** Line 51; the spread [[...browsingLevels]] is a copy of the array. *)
Definition allBrowsingLevelsFlag : Z := flagifyBrowsingLevel browsingLevels.

(** [Array.prototype.includes] on numbers. *)
Definition includes (array : list Z) (x : Z) : bool :=
  bool_decide (x ∈ array).

(** Lines 53-56; [every] is [forallb]. *)
Definition getIsPublicBrowsingLevel (level : Z) : bool :=
  let levels := parseBitwiseBrowsingLevel level in
  forallb (λ level, includes publicBrowsingLevelsArray level) levels.

(** Lines 58-60. *)
Definition getIsSafeBrowsingLevel (level : Z) : bool :=
  negb (level =? 0) && negb (Flags_intersects level nsfwBrowsingLevelsFlag).

(** [!!item] for an optional number: [undefined] and [0] are falsy. *)
Definition truthy (item : option Z) : bool :=
  match item with
  | Some n => negb (n =? 0)
  | None => false
  end.

(** Lines 62-67: the loop returns from its first truthy item. *)
Fixpoint browsingLevelOr (array : list (option Z)) : Z :=
  match array with
  | [] => publicBrowsingLevelsFlag
  | item :: rest =>
      match item with
      | Some n => if truthy item then n else browsingLevelOr rest
      | None => browsingLevelOr rest
      end
  end.

(** Lines 76-82: an object with one field per legacy value. *)
Definition nsfwLevelMapDeprecated (legacy : NsfwLevelDeprecated.t) : Z :=
  match legacy with
  | NsfwLevelDeprecated.None => value NsfwLevel.PG
  | NsfwLevelDeprecated.Soft => value NsfwLevel.PG13
  | NsfwLevelDeprecated.Mature => value NsfwLevel.R
  | NsfwLevelDeprecated.X =>
      flagifyBrowsingLevel [value NsfwLevel.X; value NsfwLevel.XXX]
  | NsfwLevelDeprecated.Blocked => value NsfwLevel.Blocked
  end.

(** Lines 83-90: the keys of the literal are written in source order, a
    later key overwriting an equal earlier one. *)
Definition nsfwLevelReverseMapDeprecated : gmap Z NsfwLevelDeprecated.t :=
  <[value NsfwLevel.Blocked := NsfwLevelDeprecated.Blocked]>
    (<[value NsfwLevel.XXX := NsfwLevelDeprecated.X]>
      (<[value NsfwLevel.X := NsfwLevelDeprecated.X]>
        (<[value NsfwLevel.R := NsfwLevelDeprecated.Mature]>
          (<[value NsfwLevel.PG13 := NsfwLevelDeprecated.Soft]>
            (<[value NsfwLevel.PG := NsfwLevelDeprecated.None]> ∅))))).

(** Lines 92-94; [??] supplies the default for a missing key. *)
Definition getNsfwLeveLDeprecatedReverseMapping (level : Z)
  : NsfwLevelDeprecated.t :=
  default NsfwLevelDeprecated.None (nsfwLevelReverseMapDeprecated !! level).

End BrowsingLevel.

(** Lines 83-90 read member by member: the legacy value that the reverse
    table lists under the value of each member. *)
Definition legacy_of (l : NsfwLevel.t) : NsfwLevelDeprecated.t :=
  match l with
  | NsfwLevel.PG => NsfwLevelDeprecated.None
  | NsfwLevel.PG13 => NsfwLevelDeprecated.Soft
  | NsfwLevel.R => NsfwLevelDeprecated.Mature
  | NsfwLevel.X => NsfwLevelDeprecated.X
  | NsfwLevel.XXX => NsfwLevelDeprecated.X
  | NsfwLevel.Blocked => NsfwLevelDeprecated.Blocked
  end.

(** ** The display tables of browsingLevel.constants.ts *)

(** An entry of [votableTagColors]. *)
Record TagColor : Set := { color : string; shade : Z }.

Section BrowsingLevelTables.

Variable bit : NsfwLevel.t → nat.

(** Lines 22-29; the keys are written in source order. *)
Definition browsingLevelLabels : gmap Z string :=
  <[value bit NsfwLevel.Blocked := "Blocked"%string]>
    (<[value bit NsfwLevel.XXX := "XXX"%string]>
      (<[value bit NsfwLevel.X := "X"%string]>
        (<[value bit NsfwLevel.R := "R"%string]>
          (<[value bit NsfwLevel.PG13 := "PG-13"%string]>
            (<[value bit NsfwLevel.PG := "PG"%string]> ∅))))).

(** Lines 31-37. *)
Definition browsingLevelDescriptions : gmap Z string :=
  <[value bit NsfwLevel.XXX := "Sexual content and activity"%string]>
    (<[value bit NsfwLevel.X :=
         "Graphic nudity, adult objects and settings"%string]>
      (<[value bit NsfwLevel.R :=
           "Adult themes and situations, partial nudity, graphic violence and death"%string]>
        (<[value bit NsfwLevel.PG13 :=
             "Revealing clothing, violence, and light gore "%string]>
          (<[value bit NsfwLevel.PG :=
               "Safe for work. No naughty stuff"%string]> ∅)))).

(** Lines 96-104. *)
Definition votableTagColors : gmap Z TagColor :=
  <[value bit NsfwLevel.Blocked := {| color := "red"; shade := 9 |}]>
    (<[value bit NsfwLevel.XXX := {| color := "red"; shade := 9 |}]>
      (<[value bit NsfwLevel.X := {| color := "red"; shade := 9 |}]>
        (<[value bit NsfwLevel.R := {| color := "red"; shade := 9 |}]>
          (<[value bit NsfwLevel.PG13 := {| color := "yellow"; shade := 5 |}]>
            (<[value bit NsfwLevel.PG := {| color := "gray"; shade := 5 |}]>
              (<[0 := {| color := "gray"; shade := 5 |}]> ∅)))))).

End BrowsingLevelTables.

(** ** The stacking context of PageModal *)

Module PageModal.

(** The updater run when the effect of [PageModal] starts: the stacking
    context of the modal is appended to the list of the store. *)
Definition mount (stackingContext : Z) (state : list Z) : list Z :=
  state ++ [stackingContext].

(** The updater run by the cleanup of the effect: the list is filtered,
    keeping the entries different from the stacking context of the modal. *)
Definition unmount (stackingContext : Z) (state : list Z) : list Z :=
  filter (λ x, x ≠ stackingContext) state.

End PageModal.

(** ** The store of PostEditProvider *)

Module PostEdit.

Section Store.

(** An element of [PostDetailEditable['images']], the post without its
    images ([PostParams]) and the payload of an upload
    ([MediaUploadOnCompleteProps]) are declared outside this file; of
    their fields only [id] is read here. *)
Variables PostImage PostParams Media : Type.
Variable image_id : PostImage → Z.
Variable post_id : PostParams → Z.

(** [PostDetailEditable]: the fields of [PostParams] and the images. *)
Record PostDetailEditable : Type :=
  { params : PostParams; post_images : list PostImage }.

(** [PostEditImageDetail]: the fields of an image and an [index];
    [{ ...data, index }] builds one. *)
Record PostEditImageDetail : Type := { image : PostImage; index : nat }.

(** [ControlledImage], a union tagged by its [type] field. *)
Inductive ControlledImage : Type :=
  | added (data : PostEditImageDetail)
  | blocked (data : Media)
  | resolving (data : Media).

(** The [type] field. *)
Definition type (x : ControlledImage) : string :=
  match x with
  | added _ => "added"
  | blocked _ => "blocked"
  | resolving _ => "resolving"
  end.

(** The [data] field. *)
Definition data (x : ControlledImage) : PostEditImageDetail + Media :=
  match x with
  | added d => inl d
  | blocked m | resolving m => inr m
  end.

(** The state of the store: its three data fields. *)
Record State : Type :=
  { post : option PostDetailEditable;
    images : list ControlledImage;
    isReordering : bool }.

(** [images.map((data, index) => ({ type: 'added', data: { ...data, index } }))] *)
Definition addedImages (images : list PostImage) : list ControlledImage :=
  imap (λ index data, added {| image := data; index := index |}) images.

(** [createContextStore]: the initial state; [post?.images.map(...) ?? []]. *)
Definition createContextStore (post : option PostDetailEditable) : State :=
  {| post := post;
     images := match post with
               | Some p => addedImages (post_images p)
               | None => []
               end;
     isReordering := false |}.

(** [Array.prototype.findIndex]: the index of the first element that
    passes the test, [-1] when there is none. *)
Fixpoint findIndex {A} (test : A → bool) (array : list A) : Z :=
  match array with
  | [] => -1
  | x :: rest =>
      if test x then 0
      else let i := findIndex test rest in if i =? -1 then -1 else i + 1
  end.

(** The callback of [updateImage] changes the data it is given in place;
    it is a function from the data to the changed data.  It is only called
    on the data of an image that passed the test of [findIndex], an
    [added] one. *)
Definition updateData (cb : PostEditImageDetail → PostEditImageDetail)
    (x : ControlledImage) : ControlledImage :=
  match x with
  | added d => added (cb d)
  | other => other
  end.

(** [updateImage]. *)
Definition updateImage (id : Z)
    (cb : PostEditImageDetail → PostEditImageDetail) (state : State) : State :=
  let index :=
    findIndex (λ x, match x with
                    | added d => image_id (image d) =? id
                    | _ => false
                    end) (images state) in
  if -1 <? index
  then {| post := post state;
          images := alter (updateData cb) (Z.to_nat index) (images state);
          isReordering := isReordering state |}
  else state.

(** *** lodash's [uniqBy] with a property name *)

(** The values that reading a field of a [ControlledImage] can give. *)
Inductive jsval : Type :=
  | VUndefined
  | VString (s : string)
  | VObject (o : PostEditImageDetail + Media).

(** Identity of two objects, which the embedding does not track: it is a
    parameter of the comparison. *)
Variable same_object :
  PostEditImageDetail + Media → PostEditImageDetail + Media → bool.

(** The comparison of two criteria in [uniqBy] ([===]; no criterion is
    [NaN] here). *)
Definition same_value (a b : jsval) : bool :=
  match a, b with
  | VUndefined, VUndefined => true
  | VString s, VString t => bool_decide (s = t)
  | VObject o, VObject o' => same_object o o'
  | _, _ => false
  end.

(** [_.property(key)]: [object[key]] on a [ControlledImage], an object
    whose fields are [type] and [data]. *)
Definition property (key : string) (x : ControlledImage) : jsval :=
  if decide (key = "type") then VString (type x)
  else if decide (key = "data") then VObject (data x)
  else VUndefined.

(** The loop of [uniqBy]: an element is kept when its criterion is the same
    as none of the criteria [seen] so far. *)
Fixpoint baseUniq {A} (iteratee : A → jsval) (seen : list jsval)
    (array : list A) : list A :=
  match array with
  | [] => []
  | value :: rest =>
      let computed := iteratee value in
      if existsb (same_value computed) seen then baseUniq iteratee seen rest
      else value :: baseUniq iteratee (seen ++ [computed]) rest
  end.

Definition uniqBy (array : list ControlledImage) (key : string)
  : list ControlledImage :=
  baseUniq (property key) [] array.

(** The updater that [useDidUpdate] passes to [store.setState] when [post]
    changes; its result is merged into the state.  [isSamePost] holds when
    the state has a post, [post] is defined and the two [id]s are equal. *)
Definition didUpdate (new_post : option PostDetailEditable) (state : State)
  : State :=
  let replaced :=
    match new_post with
    | Some p => addedImages (post_images p)
    | None => []
    end in
  match post state, new_post with
  | Some old, Some p =>
      if post_id (params old) =? post_id (params p)
      then {| post := new_post;
              images := uniqBy (images state ++ addedImages (post_images p))
                          "url";
              isReordering := isReordering state |}
      else {| post := new_post; images := replaced;
              isReordering := isReordering state |}
  | _, _ => {| post := new_post; images := replaced;
               isReordering := isReordering state |}
  end.

End Store.

Arguments added {PostImage Media} data.
Arguments blocked {PostImage Media} data.
Arguments resolving {PostImage Media} data.
Arguments Build_PostEditImageDetail {PostImage} image index.
Arguments image {PostImage} p.
Arguments index {PostImage} p.
Arguments Build_PostDetailEditable {PostImage PostParams} params post_images.
Arguments params {PostImage PostParams} p.
Arguments post_images {PostImage PostParams} p.
Arguments Build_State {PostImage PostParams Media} post images isReordering.
Arguments post {PostImage PostParams Media} s.
Arguments images {PostImage PostParams Media} s.
Arguments isReordering {PostImage PostParams Media} s.
Arguments type {PostImage Media} x.
Arguments data {PostImage Media} x.
Arguments addedImages {PostImage Media} images.
Arguments createContextStore {PostImage PostParams Media} post.
Arguments updateData {PostImage Media} cb x.
Arguments updateImage {PostImage PostParams Media} image_id id cb state.
Arguments VUndefined {PostImage Media}.
Arguments VString {PostImage Media} s.
Arguments VObject {PostImage Media} o.
Arguments same_value {PostImage Media} same_object a b.
Arguments property {PostImage Media} key x.
Arguments baseUniq {PostImage Media} same_object {A} iteratee seen array.
Arguments uniqBy {PostImage Media} same_object array key.
Arguments didUpdate {PostImage PostParams Media} post_id same_object new_post state.

End PostEdit.

(** ** The code at the usual values *)

Example parse_21 : parseBitwiseBrowsingLevel usual_bit 21 = [1; 4; 16].
Proof. reflexivity. Qed.
Example parse_37 : parseBitwiseBrowsingLevel usual_bit 37 = [1; 4].
Proof. reflexivity. Qed.
Example flagify_dup : flagifyBrowsingLevel [4; 1; 4] = 5.
Proof. reflexivity. Qed.
Example rev_8 : getNsfwLeveLDeprecatedReverseMapping usual_bit 8 = NsfwLevelDeprecated.X.
Proof. vm_compute. reflexivity. Qed.
Example or_ex : browsingLevelOr usual_bit [None; Some 0; Some 4; Some 2] = 4.
Proof. reflexivity. Qed.

(** ** Bits of the level values and of the masks *)

Section Bits.

Variable bit : NsfwLevel.t → nat.

Lemma value_pos l : 0 < value bit l.
Proof. unfold value. apply Z.pow_pos_nonneg; lia. Qed.

Lemma testbit_value l k :
  0 ≤ k → Z.testbit (value bit l) k = bool_decide (k = Z.of_nat (bit l)).
Proof.
  intros Hk. unfold value. rewrite Z.pow2_bits_eqb by lia.
  case_bool_decide; lia.
Qed.

Lemma testbit_value_self l : Z.testbit (value bit l) (Z.of_nat (bit l)) = true.
Proof. rewrite testbit_value by lia. by rewrite bool_decide_eq_true. Qed.

(** A mask is zero exactly when it has no bit at a position from 0 on. *)
Lemma land_zero_bits a b :
  Z.land a b = 0 ↔ ∀ k, 0 ≤ k → Z.testbit a k && Z.testbit b k = false.
Proof.
  split.
  - intros H k Hk. rewrite <- Z.land_spec, H. apply Z.bits_0.
  - intros H. apply Z.bits_inj'. intros k Hk.
    rewrite Z.land_spec, Z.bits_0. by apply H.
Qed.

Lemma intersects_false a b :
  Flags_intersects a b = false ↔
  ∀ k, 0 ≤ k → Z.testbit a k && Z.testbit b k = false.
Proof.
  unfold Flags_intersects. rewrite negb_false_iff, Z.eqb_eq.
  apply land_zero_bits.
Qed.

Lemma intersects_true a b k :
  0 ≤ k → Z.testbit a k = true → Z.testbit b k = true →
  Flags_intersects a b = true.
Proof.
  intros Hk Ha Hb. destruct (Flags_intersects a b) eqn:E; [done|].
  pose proof (proj1 (intersects_false a b) E k Hk) as Hf.
  rewrite Ha, Hb in Hf. done.
Qed.

(** The bits of an encoded mask are the bits of the encoded values. *)
Lemma testbit_foldl_lor flags : ∀ a k,
  Z.testbit (foldl Z.lor a flags) k = true ↔
  Z.testbit a k = true ∨ ∃ v, v ∈ flags ∧ Z.testbit v k = true.
Proof.
  induction flags as [|x flags IH]; intros a k; simpl.
  - split; [by left|]. intros [H|(v & Hv & _)]; [done|]. by apply elem_of_nil in Hv.
  - rewrite IH, Z.lor_spec, orb_true_iff. split.
    + intros [[H|H]|(v & Hv & Hb)]; [by left| |].
      * right. exists x. split; [left|done].
      * right. exists v. split; [by right|done].
    + intros [H|(v & Hv & Hb)]; [by left; left|].
      apply elem_of_cons in Hv as [->|Hv]; [by left; right|].
      right. eauto.
Qed.

Lemma testbit_flagify levels k :
  Z.testbit (flagifyBrowsingLevel levels) k = true ↔
  ∃ v, v ∈ levels ∧ Z.testbit v k = true.
Proof.
  unfold flagifyBrowsingLevel, Flags_arrayToInstance.
  rewrite testbit_foldl_lor, Z.bits_0. split; [by intros [?|?]|by right].
Qed.

(** Encoding depends on the set of the encoded values only. *)
Lemma flagify_ext xs ys :
  (∀ v, v ∈ xs ↔ v ∈ ys) → flagifyBrowsingLevel xs = flagifyBrowsingLevel ys.
Proof.
  intros H. apply Z.bits_inj. intros k.
  apply eq_true_iff_eq. rewrite !testbit_flagify.
  split; intros (v & Hv & Hb); exists v; split; try done; by apply H.
Qed.

Lemma flagify_app xs ys :
  flagifyBrowsingLevel (xs ++ ys) =
  Z.lor (flagifyBrowsingLevel xs) (flagifyBrowsingLevel ys).
Proof.
  apply Z.bits_inj. intros k. apply eq_true_iff_eq.
  rewrite Z.lor_spec, orb_true_iff, !testbit_flagify.
  setoid_rewrite elem_of_app. split.
  - intros (v & [Hv|Hv] & Hb); [left|right]; eauto.
  - intros [(v & Hv & Hb)|(v & Hv & Hb)]; exists v; eauto.
Qed.

(** Two filters agree on a list when their tests agree on its elements. *)
Lemma filter_iff_elem {A} (P Q : A → Prop)
    `{!∀ x, Decision (P x), !∀ x, Decision (Q x)} (l : list A) :
  (∀ x, x ∈ l → (P x ↔ Q x)) → filter P l = filter Q l.
Proof.
  induction l as [|x l IH]; intros HPQ; [done|].
  rewrite !filter_cons, IH by (intros; apply HPQ; by right).
  assert (P x ↔ Q x) as Hx by (apply HPQ; left).
  destruct (decide (P x)), (decide (Q x)); try tauto; done.
Qed.

Lemma elem_of_browsingLevels v :
  v ∈ browsingLevels bit ↔ ∃ l, l ∈ ranks ∧ v = value bit l.
Proof.
  change (browsingLevels bit) with (value bit <$> ranks).
  rewrite list_elem_of_fmap. split; intros (l & ? & ?); eauto.
Qed.

Lemma elem_of_parse mask v :
  v ∈ parseBitwiseBrowsingLevel bit mask ↔
  ∃ l, l ∈ ranks ∧ Z.testbit mask (Z.of_nat (bit l)) = true ∧ v = value bit l.
Proof.
  unfold parseBitwiseBrowsingLevel, Flags_instanceToArray.
  rewrite list_elem_of_fmap. setoid_rewrite list_elem_of_filter. split.
  - intros (l & -> & Hb & Hl). eauto.
  - intros (l & Hl & Hb & ->). eauto.
Qed.

End Bits.

(** ** Decoding and encoding when every member has a bit of its own *)

Section Codec.

Variable bit : NsfwLevel.t → nat.
Hypothesis bit_inj : Inj (=) (=) bit.

Lemma testbit_value_rank l l' :
  Z.testbit (value bit l) (Z.of_nat (bit l')) = bool_decide (l = l').
Proof using bit_inj.
  rewrite testbit_value by lia. apply bool_decide_ext. split.
  - intros H. apply Nat2Z.inj in H. symmetry. by apply bit_inj.
  - by intros ->.
Qed.

Lemma value_inj : Inj (=) (=) (value bit).
Proof using bit_inj.
  intros l l' H. pose proof (testbit_value_self bit l) as Hb.
  rewrite H, testbit_value_rank in Hb.
  by apply bool_decide_eq_true in Hb.
Qed.

(** The bit of a member is set in the encoding of member values exactly
    when the value of that member was encoded. *)
Lemma testbit_flagify_rank levels l :
  (∀ v, v ∈ levels → ∃ l', v = value bit l') →
  Z.testbit (flagifyBrowsingLevel levels) (Z.of_nat (bit l)) = true ↔
  value bit l ∈ levels.
Proof using bit_inj.
  intros Hlv. rewrite testbit_flagify. split.
  - intros (v & Hv & Hb). destruct (Hlv v Hv) as [l' ->].
    rewrite testbit_value_rank in Hb. apply bool_decide_eq_true in Hb.
    by subst l'.
  - intros Hin. exists (value bit l). split; [done|]. apply testbit_value_self.
Qed.

Lemma filter_value_fmap (P : NsfwLevel.t → Prop) (Q : Z → Prop)
    `{!∀ l, Decision (P l), !∀ v, Decision (Q v)} (ls : list NsfwLevel.t) :
  (∀ l, l ∈ ls → (P l ↔ Q (value bit l))) →
  value bit <$> filter P ls = filter Q (value bit <$> ls).
Proof using Type.
  induction ls as [|l ls IH]; intros HPQ; [done|].
  rewrite fmap_cons, !filter_cons.
  assert (P l ↔ Q (value bit l)) as Hl by (apply HPQ; left).
  rewrite <- IH by (intros; apply HPQ; by right).
  destruct (decide (P l)), (decide (Q (value bit l))); try tauto; done.
Qed.

Lemma subseteq_browsingLevels_value levels :
  levels ⊆ browsingLevels bit → ∀ v, v ∈ levels → ∃ l, v = value bit l.
Proof using Type.
  intros Hsub v Hv. apply Hsub, elem_of_browsingLevels in Hv as (l & _ & ->).
  eauto.
Qed.

Lemma NoDup_ranks : NoDup ranks.
Proof using Type. unfold ranks. compute_done. Qed.

Lemma NoDup_browsingLevels : NoDup (browsingLevels bit).
Proof using bit_inj.
  change (browsingLevels bit) with (value bit <$> ranks).
  pose proof value_inj as Hinj.
apply (NoDup_fmap_2 (value bit)), NoDup_ranks.
Qed.

(** Decoding an encoded sequence of ranks keeps, of the enumeration, the
    ranks that occur in the sequence. *)
Lemma parse_flagify levels :
  levels ⊆ browsingLevels bit →
  parseBitwiseBrowsingLevel bit (flagifyBrowsingLevel levels) =
  filter (.∈ levels) (browsingLevels bit).
Proof using bit_inj.
  intros Hsub. unfold parseBitwiseBrowsingLevel, Flags_instanceToArray.
  change (browsingLevels bit) with (value bit <$> ranks).
  apply filter_value_fmap. intros l _.
  apply testbit_flagify_rank. by apply subseteq_browsingLevels_value.
Qed.

(** Encoding the decode of a mask keeps the bits of the five ranks. *)
Lemma testbit_flagify_parse mask k :
  Z.testbit (flagifyBrowsingLevel (parseBitwiseBrowsingLevel bit mask)) k = true ↔
  ∃ l, l ∈ ranks ∧ k = Z.of_nat (bit l) ∧ Z.testbit mask k = true.
Proof using Type.
  rewrite testbit_flagify. setoid_rewrite elem_of_parse. split.
  - intros (v & (l & Hl & Hm & ->) & Hb). exists l.
    destruct (Z.le_gt_cases 0 k) as [Hk|Hk].
    + rewrite testbit_value in Hb by done. apply bool_decide_eq_true in Hb.
      by subst k.
    + rewrite Z.testbit_neg_r in Hb by lia. done.
  - intros (l & Hl & -> & Hm). exists (value bit l).
    split; [eauto|apply testbit_value_self].
Qed.

Lemma flagify_parse_flagify levels :
  levels ⊆ browsingLevels bit →
  flagifyBrowsingLevel (parseBitwiseBrowsingLevel bit (flagifyBrowsingLevel levels)) =
  flagifyBrowsingLevel levels.
Proof using bit_inj.
  intros Hsub. apply flagify_ext. intros v.
  rewrite parse_flagify, list_elem_of_filter by done. split; [tauto|].
  intros Hv. split; [done|]. by apply Hsub.
Qed.

End Codec.

Lemma usual_bit_inj : Inj (=) (=) usual_bit.
Proof. intros [] [] H; first [reflexivity | discriminate H]. Qed.

(** ** The round trip between sequences of ranks and masks *)

Section RoundTrip.

Variable bit : NsfwLevel.t → nat.
Hypothesis bit_inj : Inj (=) (=) bit.

(** The bit of a member in the encoding of the values of [ls]. *)
Lemma testbit_flagify_values (ls : list NsfwLevel.t) l :
  Z.testbit (flagifyBrowsingLevel (value bit <$> ls)) (Z.of_nat (bit l)) =
  bool_decide (l ∈ ls).
Proof using bit_inj.
  apply eq_true_iff_eq. rewrite bool_decide_eq_true.
  rewrite testbit_flagify_rank, list_elem_of_fmap; [|done|].
  - split; [|by eauto]. intros (l' & Heq & Hl').
    by apply (value_inj bit bit_inj) in Heq as ->.
  - intros v (l' & -> & _)%list_elem_of_fmap. eauto.
Qed.

(** Decoding the encoding of member values, written over the members:
    the right-hand side computes for a concrete list. *)
Lemma parse_flagify_values (ls : list NsfwLevel.t) :
  parseBitwiseBrowsingLevel bit (flagifyBrowsingLevel (value bit <$> ls)) =
  value bit <$> filter (.∈ ls) ranks.
Proof using bit_inj.
  unfold parseBitwiseBrowsingLevel, Flags_instanceToArray. f_equal.
  apply list_filter_iff. intros l.
  by rewrite testbit_flagify_values, bool_decide_eq_true.
Qed.

(** C1. For every subset [S] of the five ranks and every sequence
    [levels] whose set of elements is [S], whatever its order and its
    duplicates, decoding the encoding of [levels] returns the ranks of [S]
    in the enumeration order PG, PG13, R, X, XXX: the enumeration filtered
    by membership in [S], which holds exactly the elements of [S], each
    once.  Re-encoding that decode gives the mask back. *)
Theorem parse_flagify_roundtrip (S : gset Z) (levels : list Z) :
  S ⊆ list_to_set (browsingLevels bit) →
  list_to_set levels = S →
  parseBitwiseBrowsingLevel bit (flagifyBrowsingLevel levels) =
    filter (.∈ S) (browsingLevels bit)
  ∧ (∀ v, v ∈ parseBitwiseBrowsingLevel bit (flagifyBrowsingLevel levels) ↔ v ∈ S)
  ∧ NoDup (parseBitwiseBrowsingLevel bit (flagifyBrowsingLevel levels))
  ∧ flagifyBrowsingLevel
      (parseBitwiseBrowsingLevel bit (flagifyBrowsingLevel levels)) =
    flagifyBrowsingLevel levels.
Proof using bit_inj.
  intros HS Hlevels.
  assert (∀ v, v ∈ levels ↔ v ∈ S) as Hmem.
  { intros v. rewrite <- Hlevels. by rewrite elem_of_list_to_set. }
  assert (levels ⊆ browsingLevels bit) as Hsub.
  { intros v Hv. apply Hmem, HS in Hv. by apply elem_of_list_to_set in Hv. }
  assert (parseBitwiseBrowsingLevel bit (flagifyBrowsingLevel levels) =
          filter (.∈ S) (browsingLevels bit)) as Hparse.
  { rewrite parse_flagify by done. by apply list_filter_iff. }
  split; [done|]. rewrite Hparse. split; [|split].
  - intros v. rewrite list_elem_of_filter. split; [tauto|].
    intros Hv. split; [done|]. by apply Hsub, Hmem.
  - apply NoDup_filter, NoDup_browsingLevels, bit_inj.
  - rewrite <- Hparse. by apply flagify_parse_flagify.
Qed.

(** C2. Whatever the mask, its decode holds values of the five ranks
    only; the value of Blocked, and any other power of two whose position
    belongs to none of the five ranks, never occurs in it, and setting the
    bit of Blocked in a mask does not change its decode. *)
Theorem parse_only_ranks (mask : Z) :
  (∀ v, v ∈ parseBitwiseBrowsingLevel bit mask → v ∈ browsingLevels bit)
  ∧ (value bit NsfwLevel.Blocked ∉ parseBitwiseBrowsingLevel bit mask)
  ∧ (∀ k : nat, (∀ l, l ∈ ranks → k ≠ bit l) →
       2 ^ Z.of_nat k ∉ parseBitwiseBrowsingLevel bit mask)
  ∧ parseBitwiseBrowsingLevel bit (Z.lor mask (value bit NsfwLevel.Blocked)) =
    parseBitwiseBrowsingLevel bit mask.
Proof using bit_inj.
  split; [|split; [|split]].
  - intros v (l & Hl & _ & ->)%elem_of_parse.
    apply elem_of_browsingLevels. eauto.
  - intros (l & Hl & _ & Heq)%elem_of_parse.
    apply (value_inj bit bit_inj) in Heq. subst l.
    revert Hl. unfold ranks. compute_done.
  - intros k Hk (l & Hl & _ & Heq)%elem_of_parse.
    apply (Hk l Hl). unfold value in Heq.
    apply Z.pow_inj_r in Heq; lia.
  - unfold parseBitwiseBrowsingLevel, Flags_instanceToArray. f_equal.
    apply filter_iff_elem. intros l Hl.
    rewrite Z.lor_spec, testbit_value_rank by done.
    rewrite bool_decide_eq_false_2, orb_false_r; [done|].
    intros Heq. subst l. revert Hl. unfold ranks. compute_done.
Qed.

End RoundTrip.

(** ** The groups and the classification of masks *)

Section Groups.

Variable bit : NsfwLevel.t → nat.
Hypothesis bit_inj : Inj (=) (=) bit.

Lemma flagify_singleton v : flagifyBrowsingLevel [v] = v.
Proof using Type. reflexivity. Qed.

Lemma getIsSafe_true_iff m :
  getIsSafeBrowsingLevel bit m = true ↔
  m ≠ 0 ∧ Z.land m (nsfwBrowsingLevelsFlag bit) = 0.
Proof using Type.
  unfold getIsSafeBrowsingLevel, Flags_intersects.
  rewrite andb_true_iff, !negb_true_iff, negb_false_iff, Z.eqb_neq, Z.eqb_eq.
  done.
Qed.

(** A mask avoids the NotSafeForWork group exactly when the bits of R, X
    and XXX are clear in it. *)
Lemma land_nsfw_zero_iff m :
  Z.land m (nsfwBrowsingLevelsFlag bit) = 0 ↔
  ∀ l, l ∈ [NsfwLevel.R; NsfwLevel.X; NsfwLevel.XXX] →
       Z.testbit m (Z.of_nat (bit l)) = false.
Proof using Type.
  rewrite land_zero_bits. unfold nsfwBrowsingLevelsFlag.
  change (nsfwBrowsingLevelsArray bit)
    with (value bit <$> [NsfwLevel.R; NsfwLevel.X; NsfwLevel.XXX]).
  split.
  - intros H l Hl. specialize (H (Z.of_nat (bit l)) ltac:(lia)).
    apply andb_false_iff in H as [H|H]; [done|].
    apply not_true_iff_false in H. destruct H. apply testbit_flagify.
    exists (value bit l). split; [|apply testbit_value_self].
    apply list_elem_of_fmap. eauto.
  - intros H k Hk. apply andb_false_iff.
    destruct (Z.testbit (flagifyBrowsingLevel _) k) eqn:E; [left|by right].
    apply testbit_flagify in E as (v & (l & -> & Hl)%list_elem_of_fmap & Hb).
    rewrite testbit_value in Hb by done. apply bool_decide_eq_true in Hb.
    subst k. by apply H.
Qed.

Lemma getIsPublic_true_iff m :
  getIsPublicBrowsingLevel bit m = true ↔
  ∀ v, v ∈ parseBitwiseBrowsingLevel bit m → v ∈ publicBrowsingLevelsArray bit.
Proof using Type.
  unfold getIsPublicBrowsingLevel, includes. cbv zeta.
  induction (parseBitwiseBrowsingLevel bit m) as [|x xs IH]; simpl.
  - split; [|done]. intros _ v Hv. by apply elem_of_nil in Hv.
  - rewrite andb_true_iff, bool_decide_eq_true, IH. split.
    + intros [Hx Hxs] v [->|Hv]%elem_of_cons; [done|by apply Hxs].
    + intros H. split; [apply H; left|intros v Hv; apply H; by right].
Qed.

Lemma parse_zero : parseBitwiseBrowsingLevel bit 0 = [].
Proof using Type.
  apply elem_of_nil_inv. intros v (l & _ & Hb & _)%elem_of_parse.
  by rewrite Z.bits_0 in Hb.
Qed.

(** C3. A mask is safe exactly when it is not zero and shares no bit with
    the NotSafeForWork mask, the mask of R, X and XXX.  Mask 0 is not safe,
    the mask of PG alone is safe and the mask of PG and R is not. *)
Theorem getIsSafeBrowsingLevel_spec :
  (∀ m, getIsSafeBrowsingLevel bit m = true ↔
        m ≠ 0 ∧ Z.land m (nsfwBrowsingLevelsFlag bit) = 0)
  ∧ nsfwBrowsingLevelsFlag bit =
      Z.lor (Z.lor (value bit NsfwLevel.R) (value bit NsfwLevel.X))
            (value bit NsfwLevel.XXX)
  ∧ getIsSafeBrowsingLevel bit 0 = false
  ∧ getIsSafeBrowsingLevel bit (flagifyBrowsingLevel [value bit NsfwLevel.PG]) = true
  ∧ getIsSafeBrowsingLevel bit
      (flagifyBrowsingLevel [value bit NsfwLevel.PG; value bit NsfwLevel.R]) = false.
Proof using bit_inj.
  split; [apply getIsSafe_true_iff|]. split; [reflexivity|].
  split; [reflexivity|]. split.
  - apply getIsSafe_true_iff. split.
    + rewrite flagify_singleton. pose proof (value_pos bit NsfwLevel.PG). lia.
    + apply land_nsfw_zero_iff. intros l Hl.
      change [value bit NsfwLevel.PG] with (value bit <$> [NsfwLevel.PG]).
      rewrite testbit_flagify_values by done. apply bool_decide_eq_false.
      revert Hl. destruct l; compute_done.
  - apply not_true_iff_false. intros [_ H]%getIsSafe_true_iff.
    pose proof (proj1 (land_nsfw_zero_iff _) H NsfwLevel.R) as HR.
    change [value bit NsfwLevel.PG; value bit NsfwLevel.R]
      with (value bit <$> [NsfwLevel.PG; NsfwLevel.R]) in HR.
    rewrite testbit_flagify_values in HR by done.
    assert (NsfwLevel.R ∈ [NsfwLevel.R; NsfwLevel.X; NsfwLevel.XXX]) as Hin
      by compute_done.
    specialize (HR Hin). by apply bool_decide_eq_false in HR as [];
      compute_done.
Qed.

(** C4. A mask is public exactly when every level of its decode belongs
    to the Public group, whose only rank is PG.  The decode of mask 0 is
    empty, so mask 0 is public; the mask of PG is public, and the mask of
    PG and PG13 is not. *)
Theorem getIsPublicBrowsingLevel_spec :
  (∀ m, getIsPublicBrowsingLevel bit m = true ↔
        ∀ v, v ∈ parseBitwiseBrowsingLevel bit m →
             v ∈ publicBrowsingLevelsArray bit)
  ∧ publicBrowsingLevelsArray bit = [value bit NsfwLevel.PG]
  ∧ parseBitwiseBrowsingLevel bit 0 = []
  ∧ getIsPublicBrowsingLevel bit 0 = true
  ∧ getIsPublicBrowsingLevel bit
      (flagifyBrowsingLevel [value bit NsfwLevel.PG]) = true
  ∧ getIsPublicBrowsingLevel bit
      (flagifyBrowsingLevel [value bit NsfwLevel.PG; value bit NsfwLevel.PG13]) = false.
Proof using bit_inj.
  split; [apply getIsPublic_true_iff|]. split; [reflexivity|].
  split; [apply parse_zero|]. split; [|split].
  - apply getIsPublic_true_iff. intros v. rewrite parse_zero.
    by intros ?%elem_of_nil.
  - apply getIsPublic_true_iff. intros v.
    change [value bit NsfwLevel.PG] with (value bit <$> [NsfwLevel.PG]).
    by rewrite parse_flagify_values.
  - apply not_true_iff_false. intros H.
    pose proof (proj1 (getIsPublic_true_iff _) H (value bit NsfwLevel.PG13)) as H13.
    change [value bit NsfwLevel.PG; value bit NsfwLevel.PG13]
      with (value bit <$> [NsfwLevel.PG; NsfwLevel.PG13]) in H13.
    rewrite parse_flagify_values in H13 by done.
    assert (value bit NsfwLevel.PG13 ∈ publicBrowsingLevelsArray bit) as Hin.
    { apply H13. right. left. }
    apply list_elem_of_singleton, (value_inj bit bit_inj) in Hin. discriminate Hin.
Qed.

(** C8. Each of the four group masks is reproduced by decoding it and
    encoding the decode.  Public decodes to the one rank PG, SafeForWork to
    the two ranks PG and PG13, NotSafeForWork to the three ranks R, X and
    XXX, the ranks of a group being pairwise different, and the All mask is
    the bitwise OR of the SafeForWork and NotSafeForWork masks. *)
Theorem group_masks_fixed_points :
  (flagifyBrowsingLevel (parseBitwiseBrowsingLevel bit (publicBrowsingLevelsFlag bit))
     = publicBrowsingLevelsFlag bit
   ∧ flagifyBrowsingLevel (parseBitwiseBrowsingLevel bit (sfwBrowsingLevelsFlag bit))
     = sfwBrowsingLevelsFlag bit
   ∧ flagifyBrowsingLevel (parseBitwiseBrowsingLevel bit (nsfwBrowsingLevelsFlag bit))
     = nsfwBrowsingLevelsFlag bit
   ∧ flagifyBrowsingLevel (parseBitwiseBrowsingLevel bit (allBrowsingLevelsFlag bit))
     = allBrowsingLevelsFlag bit)
  ∧ (parseBitwiseBrowsingLevel bit (publicBrowsingLevelsFlag bit)
       = [value bit NsfwLevel.PG]
     ∧ parseBitwiseBrowsingLevel bit (sfwBrowsingLevelsFlag bit)
       = [value bit NsfwLevel.PG; value bit NsfwLevel.PG13]
     ∧ parseBitwiseBrowsingLevel bit (nsfwBrowsingLevelsFlag bit)
       = [value bit NsfwLevel.R; value bit NsfwLevel.X; value bit NsfwLevel.XXX]
     ∧ parseBitwiseBrowsingLevel bit (allBrowsingLevelsFlag bit)
       = browsingLevels bit)
  ∧ (NoDup (publicBrowsingLevelsArray bit) ∧ NoDup (sfwBrowsingLevelsArray bit)
     ∧ NoDup (nsfwBrowsingLevelsArray bit)
     ∧ length (publicBrowsingLevelsArray bit) = 1%nat
     ∧ length (sfwBrowsingLevelsArray bit) = 2%nat
     ∧ length (nsfwBrowsingLevelsArray bit) = 3%nat
     ∧ value bit NsfwLevel.PG ∈ publicBrowsingLevelsArray bit
     ∧ value bit NsfwLevel.PG ∈ sfwBrowsingLevelsArray bit)
  ∧ allBrowsingLevelsFlag bit =
      Z.lor (sfwBrowsingLevelsFlag bit) (nsfwBrowsingLevelsFlag bit).
Proof using bit_inj.
  assert (∀ ls, NoDup ls → NoDup (value bit <$> ls)) as Hnodup.
  { intros ls. pose proof (value_inj bit bit_inj) as Hinj.
  apply (NoDup_fmap_2 (value bit)). }
  assert (∀ ls : list NsfwLevel.t,
    parseBitwiseBrowsingLevel bit (flagifyBrowsingLevel (value bit <$> ls))
      = value bit <$> filter (.∈ ls) ranks) as Hparse
    by (intros; by apply parse_flagify_values).
  unfold publicBrowsingLevelsFlag, sfwBrowsingLevelsFlag,
    nsfwBrowsingLevelsFlag, allBrowsingLevelsFlag.
  change (publicBrowsingLevelsArray bit) with (value bit <$> [NsfwLevel.PG]).
  change (sfwBrowsingLevelsArray bit)
    with (value bit <$> [NsfwLevel.PG; NsfwLevel.PG13]).
  change (nsfwBrowsingLevelsArray bit)
    with (value bit <$> [NsfwLevel.R; NsfwLevel.X; NsfwLevel.XXX]).
  change (browsingLevels bit) with (value bit <$> ranks).
  rewrite !Hparse. split; [|split; [|split]].
  - repeat split; reflexivity.
  - repeat split; reflexivity.
  - repeat split; try (apply Hnodup; compute_done); try reflexivity.
    + left.
    + left.
  - change ranks with ([NsfwLevel.PG; NsfwLevel.PG13]
                       ++ [NsfwLevel.R; NsfwLevel.X; NsfwLevel.XXX]).
    rewrite fmap_app. apply flagify_app.
Qed.

(** C10. The SafeForWork and NotSafeForWork masks share no bit, and a
    mask that is safe decodes to ranks among PG and PG13 only. *)
Theorem sfw_nsfw_disjoint :
  Z.land (sfwBrowsingLevelsFlag bit) (nsfwBrowsingLevelsFlag bit) = 0
  ∧ ∀ m, getIsSafeBrowsingLevel bit m = true →
      ∀ v, v ∈ parseBitwiseBrowsingLevel bit m →
           v ∈ [value bit NsfwLevel.PG; value bit NsfwLevel.PG13].
Proof using bit_inj.
  split.
  - apply land_nsfw_zero_iff. intros l Hl. unfold sfwBrowsingLevelsFlag.
    change (sfwBrowsingLevelsArray bit)
      with (value bit <$> [NsfwLevel.PG; NsfwLevel.PG13]).
    rewrite testbit_flagify_values by done. apply bool_decide_eq_false.
    revert Hl. destruct l; compute_done.
  - intros m [_ Hm]%getIsSafe_true_iff v (l & Hl & Hb & ->)%elem_of_parse.
    pose proof (proj1 (land_nsfw_zero_iff m) Hm l) as Hclear.
    change [value bit NsfwLevel.PG; value bit NsfwLevel.PG13]
      with (value bit <$> [NsfwLevel.PG; NsfwLevel.PG13]).
    apply list_elem_of_fmap_2.
    destruct l; [compute_done | compute_done | | | |].
    1-3: rewrite Hclear in Hb by compute_done; discriminate Hb.
    exfalso. revert Hl. unfold ranks. compute_done.
Qed.

End Groups.

(** ** The effective browsing level *)

Section BrowsingLevelOr.

Variable bit : NsfwLevel.t → nat.

(** Items that are [undefined] or [0] are passed over. *)
Lemma browsingLevelOr_skip pre rest :
  Forall (λ item, item = None ∨ item = Some 0) pre →
  browsingLevelOr bit (pre ++ rest) = browsingLevelOr bit rest.
Proof.
  induction 1 as [|item pre [->| ->] _ IH]; simpl; done.
Qed.

(** A defined, non-zero item at the head is returned. *)
Lemma browsingLevelOr_hit v suf :
  v ≠ 0 → browsingLevelOr bit (Some v :: suf) = v.
Proof.
  intros Hv. simpl. destruct (Z.eqb_spec v 0); [lia|done].
Qed.

(** An array either has a first defined, non-zero item, or has none. *)
Lemma first_truthy_or_none (array : list (option Z)) :
  (∃ pre v suf, array = pre ++ Some v :: suf
                ∧ Forall (λ item, item = None ∨ item = Some 0) pre ∧ v ≠ 0)
  ∨ Forall (λ item, item = None ∨ item = Some 0) array.
Proof.
  induction array as [|item array IH]; [by right|].
  destruct item as [v|].
  - destruct (decide (v = 0)) as [->|Hv].
    + destruct IH as [(pre & w & suf & -> & Hpre & Hw)|Hall].
      * left. exists (Some 0 :: pre), w, suf. split; [done|].
        split; [|done]. constructor; [by right|done].
      * right. constructor; [by right|done].
    + left. by exists [], v, array.
  - destruct IH as [(pre & w & suf & -> & Hpre & Hw)|Hall].
    + left. exists (None :: pre), w, suf. split; [done|].
      split; [|done]. constructor; [by left|done].
    + right. constructor; [by left|done].
Qed.

(** C5. [browsingLevelOr] returns the first item that is defined and not
    zero: an item [v ≠ 0] that follows only [undefined] and [0] items is
    the result.  When every item is [undefined] or [0], the empty array
    included, the result is the Public mask.  Every array is of one of
    these two shapes. *)
Theorem browsingLevelOr_spec :
  (∀ pre v suf,
     Forall (λ item, item = None ∨ item = Some 0) pre → v ≠ 0 →
     browsingLevelOr bit (pre ++ Some v :: suf) = v)
  ∧ (∀ array,
       Forall (λ item, item = None ∨ item = Some 0) array →
       browsingLevelOr bit array = publicBrowsingLevelsFlag bit)
  ∧ (∀ array : list (option Z),
       (∃ pre v suf, array = pre ++ Some v :: suf
          ∧ Forall (λ item, item = None ∨ item = Some 0) pre ∧ v ≠ 0)
       ∨ Forall (λ item, item = None ∨ item = Some 0) array)
  ∧ browsingLevelOr bit
      [None; Some 0; Some (flagifyBrowsingLevel [value bit NsfwLevel.R])]
    = flagifyBrowsingLevel [value bit NsfwLevel.R]
  ∧ browsingLevelOr bit [None; Some 0] = publicBrowsingLevelsFlag bit
  ∧ browsingLevelOr bit [] = publicBrowsingLevelsFlag bit.
Proof.
  split; [|split; [|split; [|split; [|split]]]].
  - intros pre v suf Hpre Hv.
    rewrite browsingLevelOr_skip by done. by apply browsingLevelOr_hit.
  - intros array Hall. rewrite <- (app_nil_r array).
    by rewrite browsingLevelOr_skip.
  - apply first_truthy_or_none.
  - change [None; Some 0; Some (flagifyBrowsingLevel [value bit NsfwLevel.R])]
      with ([None; Some 0]
            ++ [Some (flagifyBrowsingLevel [value bit NsfwLevel.R])]).
    rewrite browsingLevelOr_skip
      by (constructor; [by left|]; constructor; [by right|]; constructor).
    apply browsingLevelOr_hit. change (value bit NsfwLevel.R ≠ 0).
    pose proof (value_pos bit NsfwLevel.R). lia.
  - reflexivity.
  - reflexivity.
Qed.

End BrowsingLevelOr.

(** ** The legacy levels *)

Section Legacy.

Variable bit : NsfwLevel.t → nat.
Hypothesis bit_inj : Inj (=) (=) bit.

Lemma value_neq l l' : l ≠ l' → value bit l ≠ value bit l'.
Proof using bit_inj. intros Hne Heq. by apply Hne, (value_inj bit bit_inj). Qed.

(** The table holds, under the value of each member, its legacy value. *)
Lemma reverse_lookup_value l :
  nsfwLevelReverseMapDeprecated bit !! value bit l = Some (legacy_of l).
Proof using bit_inj.
  unfold nsfwLevelReverseMapDeprecated.
  destruct l; simpl;
    repeat first
      [ apply lookup_insert_eq
      | rewrite lookup_insert_ne by (apply value_neq; discriminate) ].
Qed.

(** The table holds nothing else. *)
Lemma reverse_lookup_other level :
  (∀ l, level ≠ value bit l) →
  nsfwLevelReverseMapDeprecated bit !! level = None.
Proof using Type.
  intros Hne. unfold nsfwLevelReverseMapDeprecated.
  rewrite !lookup_insert_ne by (apply not_eq_sym, Hne). apply lookup_empty.
Qed.

Lemma reverse_lookup_is_Some level :
  is_Some (nsfwLevelReverseMapDeprecated bit !! level) ↔ ∃ l, level = value bit l.
Proof using bit_inj.
  split.
  - intros Hsome.
    destruct (decide (Exists (λ l, level = value bit l)
                (ranks ++ [NsfwLevel.Blocked]))) as [Hex|Hno].
    + apply Exists_exists in Hex as (l & _ & ->). eauto.
    + rewrite reverse_lookup_other in Hsome; [by destruct Hsome|].
      intros l ->. apply Hno, Exists_exists. exists l. split; [|done].
      destruct l; compute_done.
  - intros [l ->]. rewrite reverse_lookup_value. eauto.
Qed.

(** A mask that holds the values of two different members is the value
    of no member. *)
Lemma flagify_two_not_value levels l1 l2 l :
  l1 ≠ l2 → value bit l1 ∈ levels → value bit l2 ∈ levels →
  flagifyBrowsingLevel levels ≠ value bit l.
Proof using bit_inj.
  intros Hne H1 H2 Heq.
  assert (∀ l', value bit l' ∈ levels → l = l') as Hsame.
  { intros l' Hl'.
    assert (Z.testbit (flagifyBrowsingLevel levels) (Z.of_nat (bit l')) = true) as Hb.
    { apply testbit_flagify. exists (value bit l').
      split; [done|apply testbit_value_self]. }
    rewrite Heq, testbit_value_rank in Hb by done.
    by apply bool_decide_eq_true in Hb. }
  apply Hne. by rewrite <- (Hsame l1 H1), <- (Hsame l2 H2).
Qed.

(** C6. The reverse mapping returns the entry of the table when the
    level is a key of the table, and the legacy value None when it is not.
    The keys are the values of the six members; the single ranks PG, PG13,
    R, X, XXX map to None, Soft, Mature, X, X.  A level that is the value of
    no member, and so every mask that combines two or more different
    ranks, maps to None. *)
Theorem reverse_mapping_spec :
  (∀ level legacy,
     nsfwLevelReverseMapDeprecated bit !! level = Some legacy →
     getNsfwLeveLDeprecatedReverseMapping bit level = legacy)
  ∧ (∀ level,
       nsfwLevelReverseMapDeprecated bit !! level = None →
       getNsfwLeveLDeprecatedReverseMapping bit level = NsfwLevelDeprecated.None)
  ∧ (∀ level, is_Some (nsfwLevelReverseMapDeprecated bit !! level) ↔
              ∃ l, level = value bit l)
  ∧ getNsfwLeveLDeprecatedReverseMapping bit (value bit NsfwLevel.PG)
      = NsfwLevelDeprecated.None
  ∧ getNsfwLeveLDeprecatedReverseMapping bit (value bit NsfwLevel.PG13)
      = NsfwLevelDeprecated.Soft
  ∧ getNsfwLeveLDeprecatedReverseMapping bit (value bit NsfwLevel.R)
      = NsfwLevelDeprecated.Mature
  ∧ getNsfwLeveLDeprecatedReverseMapping bit (value bit NsfwLevel.X)
      = NsfwLevelDeprecated.X
  ∧ getNsfwLeveLDeprecatedReverseMapping bit (value bit NsfwLevel.XXX)
      = NsfwLevelDeprecated.X
  ∧ (∀ level, (∀ l, level ≠ value bit l) →
       getNsfwLeveLDeprecatedReverseMapping bit level = NsfwLevelDeprecated.None)
  ∧ (∀ levels l1 l2,
       l1 ≠ l2 → value bit l1 ∈ levels → value bit l2 ∈ levels →
       getNsfwLeveLDeprecatedReverseMapping bit (flagifyBrowsingLevel levels)
         = NsfwLevelDeprecated.None).
Proof using bit_inj.
  unfold getNsfwLeveLDeprecatedReverseMapping.
  split; [by intros level legacy ->|]. split; [by intros level ->|].
  split; [apply reverse_lookup_is_Some|].
  do 5 (split; [by rewrite reverse_lookup_value|]).
  split.
  - intros level Hne. by rewrite reverse_lookup_other.
  - intros levels l1 l2 Hne H1 H2. rewrite reverse_lookup_other; [done|].
    intros l. by apply (flagify_two_not_value levels l1 l2).
Qed.

(** C7. The forward mapping sends the legacy value X to the encoding of
    the ranks X and XXX, the bitwise OR of their two values, and that mask
    intersects the bit of X and the bit of XXX. *)
Theorem forward_mapping_X :
  nsfwLevelMapDeprecated bit NsfwLevelDeprecated.X
    = flagifyBrowsingLevel [value bit NsfwLevel.X; value bit NsfwLevel.XXX]
  ∧ nsfwLevelMapDeprecated bit NsfwLevelDeprecated.X
    = Z.lor (value bit NsfwLevel.X) (value bit NsfwLevel.XXX)
  ∧ Flags_intersects (nsfwLevelMapDeprecated bit NsfwLevelDeprecated.X)
      (value bit NsfwLevel.X) = true
  ∧ Flags_intersects (nsfwLevelMapDeprecated bit NsfwLevelDeprecated.X)
      (value bit NsfwLevel.XXX) = true.
Proof using Type.
  split; [reflexivity|]. split; [reflexivity|].
  assert (∀ l, l ∈ [NsfwLevel.X; NsfwLevel.XXX] →
    Flags_intersects (nsfwLevelMapDeprecated bit NsfwLevelDeprecated.X)
      (value bit l) = true) as Hint.
  { intros l Hl. apply (intersects_true _ _ (Z.of_nat (bit l))); [lia| |].
    - apply testbit_flagify. exists (value bit l).
      split; [|apply testbit_value_self].
      change [value bit NsfwLevel.X; value bit NsfwLevel.XXX]
        with (value bit <$> [NsfwLevel.X; NsfwLevel.XXX]).
      by apply list_elem_of_fmap_2.
    - apply testbit_value_self. }
  split; apply Hint; compute_done.
Qed.

(** C9. The reverse mapping sends the Blocked sentinel to the legacy value
    Blocked, not to the None fallback. *)
Theorem reverse_mapping_Blocked :
  getNsfwLeveLDeprecatedReverseMapping bit (value bit NsfwLevel.Blocked)
    = NsfwLevelDeprecated.Blocked
  ∧ NsfwLevelDeprecated.Blocked ≠ NsfwLevelDeprecated.None
  ∧ value bit NsfwLevel.Blocked ∉ browsingLevels bit.
Proof using bit_inj.
  split; [|split].
  - unfold getNsfwLeveLDeprecatedReverseMapping, nsfwLevelReverseMapDeprecated.
    by rewrite lookup_insert_eq.
  - discriminate.
  - intros (l & Hl & Heq)%elem_of_browsingLevels.
    apply (value_inj bit bit_inj) in Heq. subst l.
    revert Hl. unfold ranks. compute_done.
Qed.

End Legacy.

(** ** The theorems at the usual values

    The assignment PG = 1, PG13 = 2, R = 4, X = 8, XXX = 16, Blocked = 32
    gives every member a bit of its own; the theorems above are applied to
    it at concrete masks. *)

Lemma parse_flagify_roundtrip_usual :
  ({[1; 4; 16]} : gset Z) ⊆ list_to_set (browsingLevels usual_bit)
  ∧ list_to_set [16; 1; 4; 1] = ({[1; 4; 16]} : gset Z)
  ∧ parseBitwiseBrowsingLevel usual_bit (flagifyBrowsingLevel [16; 1; 4; 1]) =
      filter (.∈ ({[1; 4; 16]} : gset Z)) (browsingLevels usual_bit)
  ∧ flagifyBrowsingLevel
      (parseBitwiseBrowsingLevel usual_bit (flagifyBrowsingLevel [16; 1; 4; 1])) =
    flagifyBrowsingLevel [16; 1; 4; 1].
Proof.
  assert (({[1; 4; 16]} : gset Z) ⊆ list_to_set (browsingLevels usual_bit))
    as Hsub by compute_done.
  assert (list_to_set [16; 1; 4; 1] = ({[1; 4; 16]} : gset Z))
    as Hset by compute_done.
  split; [exact Hsub|]. split; [exact Hset|].
  destruct (parse_flagify_roundtrip usual_bit usual_bit_inj
              {[1; 4; 16]} [16; 1; 4; 1] Hsub Hset) as (Hparse & _ & _ & Hmask).
  split; [exact Hparse|exact Hmask].
Defined.

Lemma parse_only_ranks_usual :
  (32 ∉ parseBitwiseBrowsingLevel usual_bit 37)
  ∧ parseBitwiseBrowsingLevel usual_bit (Z.lor 5 32) =
    parseBitwiseBrowsingLevel usual_bit 5.
Proof.
  destruct (parse_only_ranks usual_bit usual_bit_inj 37) as (_ & Hblocked & _ & _).
  destruct (parse_only_ranks usual_bit usual_bit_inj 5) as (_ & _ & _ & Hsame).
  split; [exact Hblocked|exact Hsame].
Defined.

Lemma getIsSafeBrowsingLevel_usual :
  getIsSafeBrowsingLevel usual_bit 3 = true
  ∧ getIsSafeBrowsingLevel usual_bit 1 = true
  ∧ getIsSafeBrowsingLevel usual_bit 5 = false.
Proof.
  destruct (getIsSafeBrowsingLevel_spec usual_bit usual_bit_inj)
    as (Hiff & _ & _ & Hpg & Hpgr).
  split; [|split; [exact Hpg|exact Hpgr]].
  apply Hiff. split; [lia|reflexivity].
Defined.

Lemma getIsPublicBrowsingLevel_usual :
  getIsPublicBrowsingLevel usual_bit 1 = true
  ∧ getIsPublicBrowsingLevel usual_bit 3 = false.
Proof.
  destruct (getIsPublicBrowsingLevel_spec usual_bit usual_bit_inj)
    as (_ & _ & _ & _ & Hpg & Hsfw).
  split; [exact Hpg|exact Hsfw].
Defined.

Lemma browsingLevelOr_usual :
  browsingLevelOr usual_bit [None; Some 0; Some 4; Some 2] = 4
  ∧ browsingLevelOr usual_bit [None; Some 0] = 1.
Proof.
  destruct (browsingLevelOr_spec usual_bit) as (Hfirst & Hnone & _).
  assert (Forall (λ item : option Z, item = None ∨ item = Some 0)
            [None; Some 0]) as Hskip.
  { constructor; [by left|]. constructor; [by right|]. constructor. }
  split.
  - apply (Hfirst [None; Some 0] 4 [Some 2]); [exact Hskip|lia].
  - apply (Hnone [None; Some 0]). exact Hskip.
Defined.

Lemma reverse_mapping_usual :
  getNsfwLeveLDeprecatedReverseMapping usual_bit 8 = NsfwLevelDeprecated.X
  ∧ getNsfwLeveLDeprecatedReverseMapping usual_bit 16 = NsfwLevelDeprecated.X
  ∧ getNsfwLeveLDeprecatedReverseMapping usual_bit 24 = NsfwLevelDeprecated.None
  ∧ getNsfwLeveLDeprecatedReverseMapping usual_bit 64 = NsfwLevelDeprecated.None.
Proof.
  destruct (reverse_mapping_spec usual_bit usual_bit_inj)
    as (_ & _ & _ & _ & _ & _ & HX & HXXX & Hother & Hcombined).
  split; [exact HX|]. split; [exact HXXX|]. split.
  - apply (Hcombined [8; 16] NsfwLevel.X NsfwLevel.XXX);
      [discriminate|compute_done|compute_done].
  - apply (Hother 64). intros []; discriminate.
Defined.

Lemma group_masks_usual :
  parseBitwiseBrowsingLevel usual_bit 1 = [1]
  ∧ parseBitwiseBrowsingLevel usual_bit 3 = [1; 2]
  ∧ parseBitwiseBrowsingLevel usual_bit 28 = [4; 8; 16]
  ∧ parseBitwiseBrowsingLevel usual_bit 31 = [1; 2; 4; 8; 16]
  ∧ allBrowsingLevelsFlag usual_bit = Z.lor 3 28.
Proof.
  destruct (group_masks_fixed_points usual_bit usual_bit_inj)
    as (_ & (Hpub & Hsfw & Hnsfw & Hall) & _ & Hor).
  split; [exact Hpub|]. split; [exact Hsfw|]. split; [exact Hnsfw|].
  split; [exact Hall|exact Hor].
Defined.

Lemma reverse_mapping_Blocked_usual :
  getNsfwLeveLDeprecatedReverseMapping usual_bit 32 = NsfwLevelDeprecated.Blocked
  ∧ (32 ∉ browsingLevels usual_bit).
Proof.
  destruct (reverse_mapping_Blocked usual_bit usual_bit_inj) as (Hrev & _ & Hout).
  split; [exact Hrev|exact Hout].
Defined.

Lemma sfw_nsfw_disjoint_usual :
  Z.land 3 28 = 0
  ∧ getIsSafeBrowsingLevel usual_bit 35 = true
  ∧ (∀ v, v ∈ parseBitwiseBrowsingLevel usual_bit 35 → v ∈ [1; 2]).
Proof.
  destruct (sfw_nsfw_disjoint usual_bit usual_bit_inj) as (Hland & Hsafe).
  split; [exact Hland|]. split; [reflexivity|].
  apply (Hsafe 35). reflexivity.
Defined.

(** ** More on decoding, encoding and the classification *)

Section MoreCodec.

Variable bit : NsfwLevel.t → nat.
Hypothesis bit_inj : Inj (=) (=) bit.

Lemma testbit_allBrowsingLevelsFlag k :
  Z.testbit (allBrowsingLevelsFlag bit) k = true ↔
  ∃ l, l ∈ ranks ∧ k = Z.of_nat (bit l).
Proof using Type.
  unfold allBrowsingLevelsFlag. rewrite testbit_flagify. split.
  - intros (v & (l & Hl & ->)%elem_of_browsingLevels & Hb). exists l.
    split; [done|]. destruct (Z.le_gt_cases 0 k) as [Hk|Hk].
    + rewrite testbit_value in Hb by done. by apply bool_decide_eq_true in Hb.
    + rewrite Z.testbit_neg_r in Hb by lia. done.
  - intros (l & Hl & ->). exists (value bit l).
    split; [|apply testbit_value_self]. apply elem_of_browsingLevels. eauto.
Qed.

(** X1. Decoding, encoding and decoding again gives the first decode, for every
    mask; encoding the decode of a mask keeps the bits that the mask shares
    with the All mask and drops the others. *)
Theorem parse_flagify_parse (mask : Z) :
  parseBitwiseBrowsingLevel bit
    (flagifyBrowsingLevel (parseBitwiseBrowsingLevel bit mask)) =
  parseBitwiseBrowsingLevel bit mask
  ∧ flagifyBrowsingLevel (parseBitwiseBrowsingLevel bit mask) =
    Z.land mask (allBrowsingLevelsFlag bit).
Proof using Type.
  split.
  - unfold parseBitwiseBrowsingLevel at 1 3. unfold Flags_instanceToArray.
    f_equal. apply filter_iff_elem. intros l Hl.
    rewrite testbit_flagify_parse. split.
    + by intros (l' & _ & _ & Hb).
    + intros Hb. eauto.
  - apply Z.bits_inj. intros k. apply eq_true_iff_eq.
    rewrite Z.land_spec, andb_true_iff, testbit_flagify_parse,
      testbit_allBrowsingLevelsFlag.
    split.
    + intros (l & Hl & -> & Hb). eauto.
    + intros (Hb & l & Hl & ->). eauto.
Qed.



(** X3. The union of two safe masks is safe, and a union with a mask that
    intersects the NotSafeForWork mask is not safe. *)
Theorem getIsSafe_union :
  (∀ a b, getIsSafeBrowsingLevel bit a = true →
          getIsSafeBrowsingLevel bit b = true →
          getIsSafeBrowsingLevel bit (Z.lor a b) = true)
  ∧ (∀ a b, Flags_intersects a (nsfwBrowsingLevelsFlag bit) = true →
            getIsSafeBrowsingLevel bit (Z.lor a b) = false
            ∧ getIsSafeBrowsingLevel bit (Z.lor b a) = false).
Proof using Type.
  split.
  - intros a b [Ha Hna]%getIsSafe_true_iff [Hb Hnb]%getIsSafe_true_iff.
    apply getIsSafe_true_iff. split.
    + rewrite Z.lor_eq_0_iff. tauto.
    + by rewrite Z.land_lor_distr_l, Hna, Hnb.
  - intros a b Hint.
    assert (Z.land a (nsfwBrowsingLevelsFlag bit) ≠ 0) as Hne.
    { unfold Flags_intersects in Hint.
      by apply negb_true_iff, Z.eqb_neq in Hint. }
    split; apply not_true_iff_false; intros [_ H]%getIsSafe_true_iff;
      rewrite Z.land_lor_distr_l, Z.lor_eq_0_iff in H; tauto.
Qed.

End MoreCodec.

(** ** More on the effective browsing level *)

Section MoreBrowsingLevelOr.

Variable bit : NsfwLevel.t → nat.
Hypothesis bit_inj : Inj (=) (=) bit.

Lemma publicBrowsingLevelsFlag_value :
  publicBrowsingLevelsFlag bit = value bit NsfwLevel.PG.
Proof using Type. reflexivity. Qed.

(** The result is taken from the array, as a defined and non-zero item, or
    is the Public mask. *)
Lemma browsingLevelOr_cases (array : list (option Z)) :
  (Some (browsingLevelOr bit array) ∈ array ∧ browsingLevelOr bit array ≠ 0)
  ∨ (Forall (λ item, item = None ∨ item = Some 0) array
     ∧ browsingLevelOr bit array = publicBrowsingLevelsFlag bit).
Proof using Type.
  destruct (first_truthy_or_none array) as [(pre & v & suf & -> & Hpre & Hv)|Hall].
  - left. rewrite browsingLevelOr_skip, browsingLevelOr_hit by done.
    split; [|done]. apply elem_of_app. right. left.
  - right. split; [done|]. rewrite <- (app_nil_r array).
    by rewrite browsingLevelOr_skip.
Qed.

(** X4. [browsingLevelOr] never returns 0, and what it returns is an item of
    the array or the Public mask. *)
Theorem browsingLevelOr_nonzero (array : list (option Z)) :
  browsingLevelOr bit array ≠ 0
  ∧ (Some (browsingLevelOr bit array) ∈ array
     ∨ browsingLevelOr bit array = publicBrowsingLevelsFlag bit).
Proof using Type.
  destruct (browsingLevelOr_cases array) as [[Hin Hne]|[_ Heq]].
  - split; [done|by left].
  - split; [|by right]. rewrite Heq, publicBrowsingLevelsFlag_value.
    pose proof (value_pos bit NsfwLevel.PG). lia.
Qed.

(** X5. Fallbacks nest: the candidates that follow can be replaced by their own
    effective level, and the effective level of an effective level is
    itself. *)
Theorem browsingLevelOr_app (xs ys : list (option Z)) :
  browsingLevelOr bit (xs ++ ys) =
    browsingLevelOr bit (xs ++ [Some (browsingLevelOr bit ys)])
  ∧ browsingLevelOr bit [Some (browsingLevelOr bit xs)] = browsingLevelOr bit xs.
Proof using Type.
  assert (∀ zs, browsingLevelOr bit [Some (browsingLevelOr bit zs)]
                = browsingLevelOr bit zs) as Hone.
  { intros zs. apply browsingLevelOr_hit.
    destruct (browsingLevelOr_cases zs) as [[_ Hne]|[_ Heq]]; [done|].
    rewrite Heq, publicBrowsingLevelsFlag_value.
    pose proof (value_pos bit NsfwLevel.PG). lia. }
  split; [|apply Hone].
  destruct (first_truthy_or_none xs) as [(pre & v & suf & -> & Hpre & Hv)|Hall].
  - rewrite <- !app_assoc, <- !app_comm_cons.
    rewrite (browsingLevelOr_skip bit pre (Some v :: suf ++ ys)) by done.
    rewrite (browsingLevelOr_skip bit pre (Some v :: suf ++ _)) by done.
    by rewrite !browsingLevelOr_hit by done.
  - by rewrite !browsingLevelOr_skip, Hone.
Qed.

(** X6. When every candidate that is defined and not zero is safe, so is the
    effective level; this covers the Public mask returned by default. *)
Theorem browsingLevelOr_safe (array : list (option Z)) :
  (∀ v, Some v ∈ array → v ≠ 0 → getIsSafeBrowsingLevel bit v = true) →
  getIsSafeBrowsingLevel bit (browsingLevelOr bit array) = true.
Proof using bit_inj.
  intros Hsafe. destruct (browsingLevelOr_cases array) as [[Hin Hne]|[_ Heq]].
  - by apply Hsafe.
  - rewrite Heq. apply getIsSafe_true_iff. split.
    + rewrite publicBrowsingLevelsFlag_value.
      pose proof (value_pos bit NsfwLevel.PG). lia.
    + apply land_nsfw_zero_iff. intros l Hl. unfold publicBrowsingLevelsFlag.
      change (publicBrowsingLevelsArray bit) with (value bit <$> [NsfwLevel.PG]).
      rewrite testbit_flagify_values by done. apply bool_decide_eq_false.
      revert Hl. destruct l; compute_done.
Qed.

End MoreBrowsingLevelOr.

(** ** Composing the two legacy mappings *)

Section LegacyRoundTrip.

Variable bit : NsfwLevel.t → nat.
Hypothesis bit_inj : Inj (=) (=) bit.

Lemma reverse_mapping_value l :
  getNsfwLeveLDeprecatedReverseMapping bit (value bit l) = legacy_of l.
Proof using bit_inj.
  unfold getNsfwLeveLDeprecatedReverseMapping.
  by rewrite reverse_lookup_value.
Qed.

Lemma land_lor_l a b : Z.land (Z.lor a b) a = a.
Proof using Type.
  apply Z.bits_inj. intros k. rewrite Z.land_spec, Z.lor_spec.
  by destruct (Z.testbit a k), (Z.testbit b k).
Qed.

Lemma land_lor_r a b : Z.land (Z.lor a b) b = b.
Proof using Type. rewrite Z.lor_comm. apply land_lor_l. Qed.

(** X7. Forward, then reverse: a legacy value other than X comes back, and X
    comes back as None, its mask being the value of no member. *)
Theorem reverse_forward_mapping :
  (∀ legacy, legacy ≠ NsfwLevelDeprecated.X →
     getNsfwLeveLDeprecatedReverseMapping bit (nsfwLevelMapDeprecated bit legacy)
       = legacy)
  ∧ getNsfwLeveLDeprecatedReverseMapping bit
      (nsfwLevelMapDeprecated bit NsfwLevelDeprecated.X)
    = NsfwLevelDeprecated.None.
Proof using bit_inj.
  split.
  - intros legacy Hne. destruct legacy; simpl;
      first [done | by rewrite reverse_mapping_value].
  - simpl. unfold getNsfwLeveLDeprecatedReverseMapping.
    rewrite reverse_lookup_other; [done|]. intros l.
    apply (flagify_two_not_value bit bit_inj _ NsfwLevel.X NsfwLevel.XXX);
      [discriminate|left|right; left].
Qed.

(** X8. Reverse, then forward: the mask that comes back for the value of a
    member holds the bit of that member, and is that value unless the member
    is X or XXX.  A level that is the value of no member, a mask of several
    ranks among them, comes back as the Public mask. *)
Theorem forward_reverse_mapping :
  (∀ l, Z.land (nsfwLevelMapDeprecated bit
                  (getNsfwLeveLDeprecatedReverseMapping bit (value bit l)))
               (value bit l) = value bit l)
  ∧ (∀ l, l ≠ NsfwLevel.X → l ≠ NsfwLevel.XXX →
          nsfwLevelMapDeprecated bit
            (getNsfwLeveLDeprecatedReverseMapping bit (value bit l))
          = value bit l)
  ∧ (∀ level, (∀ l, level ≠ value bit l) →
       nsfwLevelMapDeprecated bit
         (getNsfwLeveLDeprecatedReverseMapping bit level)
       = publicBrowsingLevelsFlag bit)
  ∧ (∀ levels l1 l2,
       l1 ≠ l2 → value bit l1 ∈ levels → value bit l2 ∈ levels →
       nsfwLevelMapDeprecated bit
         (getNsfwLeveLDeprecatedReverseMapping bit (flagifyBrowsingLevel levels))
       = publicBrowsingLevelsFlag bit).
Proof using bit_inj.
  assert (∀ level, (∀ l, level ≠ value bit l) →
       nsfwLevelMapDeprecated bit
         (getNsfwLeveLDeprecatedReverseMapping bit level)
       = publicBrowsingLevelsFlag bit) as Hother.
  { intros level Hne. unfold getNsfwLeveLDeprecatedReverseMapping.
    by rewrite reverse_lookup_other. }
  split; [|split; [|split; [done|]]].
  - intros l. rewrite reverse_mapping_value.
    destruct l; simpl; first [apply Z.land_diag | apply land_lor_l | apply land_lor_r].
  - intros l HX HXXX. rewrite reverse_mapping_value. by destruct l.
  - intros levels l1 l2 Hne H1 H2. apply Hother. intros l.
    by apply (flagify_two_not_value bit bit_inj levels l1 l2).
Qed.

End LegacyRoundTrip.

(** ** The display tables *)

Section TableKeys.

Variable bit : NsfwLevel.t → nat.

Lemma dom_browsingLevelLabels :
  dom (browsingLevelLabels bit) =
  list_to_set (browsingLevels bit) ∪ {[value bit NsfwLevel.Blocked]}.
Proof using Type.
  unfold browsingLevelLabels, browsingLevels.
  rewrite !dom_insert_L, dom_empty_L, !list_to_set_cons, list_to_set_nil.
  set_unfold. intros x. tauto.
Qed.

Lemma dom_browsingLevelDescriptions :
  dom (browsingLevelDescriptions bit) = list_to_set (browsingLevels bit).
Proof using Type.
  unfold browsingLevelDescriptions, browsingLevels.
  rewrite !dom_insert_L, dom_empty_L, !list_to_set_cons, list_to_set_nil.
  set_unfold. intros x. tauto.
Qed.

Lemma dom_votableTagColors :
  dom (votableTagColors bit) =
  {[0]} ∪ list_to_set (browsingLevels bit) ∪ {[value bit NsfwLevel.Blocked]}.
Proof using Type.
  unfold votableTagColors, browsingLevels.
  rewrite !dom_insert_L, dom_empty_L, !list_to_set_cons, list_to_set_nil.
  set_unfold. intros x. tauto.
Qed.

Lemma dom_nsfwLevelReverseMapDeprecated :
  dom (nsfwLevelReverseMapDeprecated bit) =
  list_to_set (browsingLevels bit) ∪ {[value bit NsfwLevel.Blocked]}.
Proof using Type.
  unfold nsfwLevelReverseMapDeprecated, browsingLevels.
  rewrite !dom_insert_L, dom_empty_L, !list_to_set_cons, list_to_set_nil.
  set_unfold. intros x. tauto.
Qed.


End TableKeys.

Section Tables.

Variable bit : NsfwLevel.t → nat.
Hypothesis bit_inj : Inj (=) (=) bit.

Lemma Blocked_not_rank : value bit NsfwLevel.Blocked ∉ browsingLevels bit.
Proof using bit_inj.
  intros (l & Hl & Heq)%elem_of_browsingLevels.
  apply (value_inj bit bit_inj) in Heq. subst l.
  revert Hl. unfold ranks. compute_done.
Qed.

(** X10. The keys of the tables.  Labels and the reverse legacy table have the
    values of the six members as keys; descriptions have the five ranks, so
    that Blocked has a label and no description; the tag colours have the
    six values and 0, which is the value of no member. *)
Theorem table_keys :
  dom (browsingLevelLabels bit) = dom (nsfwLevelReverseMapDeprecated bit)
  ∧ (∀ v, is_Some (browsingLevelLabels bit !! v) ↔ ∃ l, v = value bit l)
  ∧ (∀ v, is_Some (browsingLevelDescriptions bit !! v) ↔ v ∈ browsingLevels bit)
  ∧ browsingLevelLabels bit !! value bit NsfwLevel.Blocked = Some "Blocked"%string
  ∧ browsingLevelDescriptions bit !! value bit NsfwLevel.Blocked = None
  ∧ (∀ v, is_Some (votableTagColors bit !! v) ↔
          v = 0 ∨ is_Some (browsingLevelLabels bit !! v))
  ∧ browsingLevelLabels bit !! 0 = None.
Proof using bit_inj.
  assert (∀ v, is_Some (browsingLevelLabels bit !! v) ↔ ∃ l, v = value bit l)
    as Hlabels.
  { intros v. rewrite <- elem_of_dom, dom_browsingLevelLabels, elem_of_union,
      elem_of_list_to_set, elem_of_browsingLevels, elem_of_singleton. split.
    - intros [(l & _ & ->)| ->]; eauto.
    - intros [l ->]. destruct (decide (l = NsfwLevel.Blocked)) as [->|Hne];
        [by right|left]. exists l. split; [|done].
      revert Hne. unfold ranks. destruct l; compute_done. }
  split; [by rewrite dom_browsingLevelLabels, dom_nsfwLevelReverseMapDeprecated|].
  split; [done|]. split; [|split; [|split; [|split]]].
  - intros v.
    by rewrite <- elem_of_dom, dom_browsingLevelDescriptions, elem_of_list_to_set.
  - unfold browsingLevelLabels. apply lookup_insert_eq.
  - apply not_elem_of_dom.
    rewrite dom_browsingLevelDescriptions, elem_of_list_to_set.
    apply Blocked_not_rank.
  - intros v. rewrite <- !elem_of_dom, dom_votableTagColors, dom_browsingLevelLabels.
    rewrite !elem_of_union, elem_of_singleton. tauto.
  - apply eq_None_not_Some. intros [l Hl]%Hlabels.
    pose proof (value_pos bit l). lia.
Qed.

(** The value of a single member is safe unless the member is R, X or
    XXX. *)
Lemma getIsSafe_value l :
  getIsSafeBrowsingLevel bit (value bit l) = true ↔
  l ∉ [NsfwLevel.R; NsfwLevel.X; NsfwLevel.XXX].
Proof using bit_inj.
  rewrite getIsSafe_true_iff, land_nsfw_zero_iff. split.
  - intros [_ Hclear] Hin. specialize (Hclear l Hin).
    by rewrite testbit_value_self in Hclear.
  - intros Hnot. split; [pose proof (value_pos bit l); lia|].
    intros l' Hl'. rewrite testbit_value_rank by done.
    apply bool_decide_eq_false. by intros ->.
Qed.

(** X11. For a single rank, the tag colour is red exactly when the rank is not
    safe.  Blocked is the exception: its colour is red, and
    [getIsSafeBrowsingLevel] accepts its value. *)
Theorem red_iff_not_safe :
  (∀ l, l ∈ ranks →
     (color <$> votableTagColors bit !! value bit l = Some "red"%string ↔
      getIsSafeBrowsingLevel bit (value bit l) = false))
  ∧ color <$> votableTagColors bit !! value bit NsfwLevel.Blocked
    = Some "red"%string
  ∧ getIsSafeBrowsingLevel bit (value bit NsfwLevel.Blocked) = true.
Proof using bit_inj.
  assert (∀ l, votableTagColors bit !! value bit l =
    Some (match l with
          | NsfwLevel.PG => {| color := "gray"; shade := 5 |}
          | NsfwLevel.PG13 => {| color := "yellow"; shade := 5 |}
          | _ => {| color := "red"; shade := 9 |}
          end)) as Hcolor.
  { intros l. unfold votableTagColors.
    destruct l;
      repeat first
        [ apply lookup_insert_eq
        | rewrite lookup_insert_ne
            by (apply (value_neq bit bit_inj); discriminate) ]. }
  split; [|split].
  - intros l Hl. rewrite Hcolor, <- not_true_iff_false, getIsSafe_value.
    destruct l; simpl; split; intros H;
      first [ discriminate H | exfalso; apply H; compute_done
            | reflexivity | intros Hn; apply Hn; compute_done
            | exfalso; revert Hl; unfold ranks; compute_done ].
  - by rewrite Hcolor.
  - apply getIsSafe_value. compute_done.
Qed.

End Tables.

(** ** The stacking context of PageModal *)

Section StackingContext.

Lemma unmount_absent (c : Z) (s : list Z) : c ∉ s → PageModal.unmount c s = s.
Proof.
  unfold PageModal.unmount. induction s as [|x s IH]; intros Hc; [done|].
  apply not_elem_of_cons in Hc as [Hx Hs].
  rewrite filter_cons_True by done. by rewrite IH.
Qed.

Lemma unmount_mount_same (c : Z) (s : list Z) :
  PageModal.unmount c (PageModal.mount c s) = PageModal.unmount c s.
Proof.
  unfold PageModal.unmount, PageModal.mount.
  rewrite filter_app, filter_cons_False, filter_nil, app_nil_r; [done|].
  by intros H.
Qed.

(** X12. The cleanup of a modal removes what its effect appended: the list is
    restored when the stacking context was not in it before.  It removes
    every entry equal to the stacking context, so the entry of a second
    modal with the same stacking context goes with it. *)
Theorem unmount_mount (c : Z) (s : list Z) :
  (c ∉ PageModal.unmount c (PageModal.mount c s))
  ∧ PageModal.unmount c (PageModal.mount c s) = PageModal.unmount c s
  ∧ (c ∉ s → PageModal.unmount c (PageModal.mount c s) = s)
  ∧ PageModal.unmount c (PageModal.mount c (PageModal.mount c s))
    = PageModal.unmount c s.
Proof.
  split; [|split; [|split]].
  - unfold PageModal.unmount at 1. intros [Hne _]%list_elem_of_filter. done.
  - apply unmount_mount_same.
  - intros Hc. rewrite unmount_mount_same. by apply unmount_absent.
  - by rewrite !unmount_mount_same.
Qed.

(** X13. Modals with different stacking contexts do not disturb each other: the
    cleanup of one keeps the entry of the other, in its place, and two
    cleanups can run in either order. *)
Theorem unmount_other (c d : Z) (s : list Z) :
  c ≠ d →
  PageModal.unmount c (PageModal.mount d s)
    = PageModal.mount d (PageModal.unmount c s)
  ∧ d ∈ PageModal.unmount c (PageModal.mount d s)
  ∧ PageModal.unmount c (PageModal.unmount d s)
    = PageModal.unmount d (PageModal.unmount c s).
Proof.
  intros Hne.
  assert (PageModal.unmount c (PageModal.mount d s)
          = PageModal.mount d (PageModal.unmount c s)) as Heq.
  { unfold PageModal.unmount, PageModal.mount.
    rewrite filter_app, filter_cons_True by (by intros ->). done. }
  split; [done|]. split.
  - rewrite Heq. unfold PageModal.mount. apply elem_of_app. right. left.
  - unfold PageModal.unmount. rewrite !list_filter_filter.
    apply list_filter_iff. intros x. tauto.
Qed.

End StackingContext.


(** ** The store of PostEditProvider *)

Section PostEditStore.

Context {PostImage PostParams Media : Type}.
Variable image_id : PostImage → Z.
Variable post_id : PostParams → Z.
Variable same_object :
  PostEdit.PostEditImageDetail PostImage + Media →
  PostEdit.PostEditImageDetail PostImage + Media → bool.

Local Abbreviation State := (PostEdit.State PostImage PostParams Media).
Local Abbreviation ControlledImage :=
  (PostEdit.ControlledImage PostImage Media).

(** *** [findIndex] *)

Lemma findIndex_none {A} (test : A → bool) (array : list A) :
  Forall (λ x, test x = false) array → PostEdit.findIndex test array = -1.
Proof.
  induction 1 as [|x array Hx _ IH]; simpl; [done|]. by rewrite Hx, IH.
Qed.

Lemma findIndex_nonneg {A} (test : A → bool) (array : list A) :
  PostEdit.findIndex test array = -1 ∨ 0 ≤ PostEdit.findIndex test array.
Proof.
  induction array as [|x array IH]; simpl; [by left|].
  destruct (test x); [by right|].
  destruct (Z.eqb_spec (PostEdit.findIndex test array) (-1)); [by left|].
  right. lia.
Qed.

Lemma findIndex_first {A} (test : A → bool) (pre : list A) x suf :
  Forall (λ x, test x = false) pre → test x = true →
  PostEdit.findIndex test (pre ++ x :: suf) = Z.of_nat (length pre).
Proof.
  intros Hpre Hx. induction Hpre as [|y pre Hy _ IH]; simpl.
  - by rewrite Hx.
  - rewrite Hy, IH. destruct (Z.eqb_spec (Z.of_nat (length pre)) (-1)); lia.
Qed.

Lemma alter_middle {A} (f : A → A) (pre : list A) x suf :
  alter f (length pre) (pre ++ x :: suf) = pre ++ f x :: suf.
Proof. induction pre as [|y pre IH]; simpl; [done|]. by rewrite <- IH. Qed.

(** *** [updateImage] *)

(** X14. [updateImage] changes the data of the first [added] image with the
    given [id], through the callback, and nothing else: the images before
    and after it, later images with the same [id] among them, the post and
    the reordering flag are kept.  Without an [added] image with that [id]
    the state is unchanged. *)
Theorem updateImage_spec (id : Z)
    (cb : PostEdit.PostEditImageDetail PostImage →
          PostEdit.PostEditImageDetail PostImage) (state : State) :
  ((∀ d, PostEdit.added d ∈ PostEdit.images state →
         image_id (PostEdit.image d) ≠ id) →
   PostEdit.updateImage image_id id cb state = state)
  ∧ (∀ pre d suf,
       PostEdit.images state = pre ++ PostEdit.added d :: suf →
       image_id (PostEdit.image d) = id →
       (∀ d', PostEdit.added d' ∈ pre → image_id (PostEdit.image d') ≠ id) →
       PostEdit.images (PostEdit.updateImage image_id id cb state)
         = pre ++ PostEdit.added (cb d) :: suf)
  ∧ PostEdit.post (PostEdit.updateImage image_id id cb state)
      = PostEdit.post state
  ∧ PostEdit.isReordering (PostEdit.updateImage image_id id cb state)
      = PostEdit.isReordering state
  ∧ length (PostEdit.images (PostEdit.updateImage image_id id cb state))
      = length (PostEdit.images state).
Proof.
  set (test := λ x : ControlledImage,
         match x with
         | PostEdit.added d => image_id (PostEdit.image d) =? id
         | _ => false
         end).
  assert (∀ l : list ControlledImage,
            (∀ d, PostEdit.added d ∈ l → image_id (PostEdit.image d) ≠ id) →
            Forall (λ x, test x = false) l) as Hnone.
  { intros l Hl. apply Forall_forall. intros [d|m|m] Hin; simpl; [|done|done].
    apply Z.eqb_neq. by apply Hl. }
  unfold PostEdit.updateImage. fold test. cbv zeta.
  split; [|split; [|split; [|split]]].
  - intros Habsent. by rewrite (findIndex_none test _ (Hnone _ Habsent)).
  - intros pre d suf Himages Hid Hpre. rewrite Himages.
    rewrite (findIndex_first test pre (PostEdit.added d) suf (Hnone _ Hpre))
      by (simpl; by apply Z.eqb_eq).
    destruct (Z.ltb_spec (-1) (Z.of_nat (length pre))); [|lia]. simpl.
    by rewrite Nat2Z.id, alter_middle.
  - by destruct (-1 <? _).
  - by destruct (-1 <? _).
  - destruct (-1 <? _); [|done]. simpl. apply length_alter.
Qed.

(** *** [uniqBy] on the images *)

Lemma property_url (x : ControlledImage) :
  PostEdit.property "url" x = PostEdit.VUndefined.
Proof. reflexivity. Qed.

Lemma baseUniq_url_seen (seen : list (PostEdit.jsval PostImage Media))
    (array : list ControlledImage) :
  PostEdit.VUndefined ∈ seen →
  PostEdit.baseUniq same_object (PostEdit.property "url") seen array = [].
Proof.
  intros Hseen. induction array as [|x array IH]; [done|].
  cbn [PostEdit.baseUniq]. rewrite property_url.
  assert (existsb (PostEdit.same_value same_object PostEdit.VUndefined) seen
          = true) as ->; [|done].
  apply existsb_exists. exists PostEdit.VUndefined.
  split; [by apply list_elem_of_In|done].
Qed.

(** No image has a field [url] of its own, so all criteria are [undefined]
    and [uniqBy] keeps the first image only. *)
Lemma uniqBy_url (array : list ControlledImage) :
  PostEdit.uniqBy same_object array "url" = take 1 array.
Proof.
  unfold PostEdit.uniqBy. destruct array as [|x array]; [done|].
  cbn [PostEdit.baseUniq existsb]. rewrite property_url.
  rewrite baseUniq_url_seen by (simpl; left). done.
Qed.

(** *** The update of the store when the post changes *)

(** X15. When the post of the state and the new post have the same [id], the
    images of the state and the images of the new post are merged by
    [uniqBy(..., 'url')], which keeps the first image of the merged list and
    drops the others: at most one image is left.  A store created from a
    post with images and updated with that same post holds its first image
    only. *)
Theorem didUpdate_same_post
    (old p : PostEdit.PostDetailEditable PostImage PostParams) (state : State) :
  PostEdit.post state = Some old →
  post_id (PostEdit.params old) = post_id (PostEdit.params p) →
  PostEdit.images (PostEdit.didUpdate post_id same_object (Some p) state)
    = take 1 (PostEdit.images state
              ++ PostEdit.addedImages (PostEdit.post_images p))
  ∧ (length (PostEdit.images
       (PostEdit.didUpdate post_id same_object (Some p) state)) ≤ 1)%nat
  ∧ PostEdit.images
      (PostEdit.didUpdate post_id same_object (Some p)
         (PostEdit.createContextStore (Some p)))
    = take 1 (PostEdit.addedImages (PostEdit.post_images p)).
Proof.
  intros Hpost Hid.
  assert (∀ st : State, PostEdit.post st = Some old →
    PostEdit.images (PostEdit.didUpdate post_id same_object (Some p) st)
    = take 1 (PostEdit.images st
              ++ PostEdit.addedImages (PostEdit.post_images p))) as Hsame.
  { intros st Hst. unfold PostEdit.didUpdate. rewrite Hst. cbv zeta.
    rewrite Hid, Z.eqb_refl. simpl. apply uniqBy_url. }
  split; [by apply Hsame|]. split.
  - rewrite Hsame by done. rewrite length_take. lia.
  - unfold PostEdit.didUpdate. simpl. rewrite Z.eqb_refl. simpl.
    rewrite uniqBy_url. by destruct (PostEdit.addedImages _).
Qed.

End PostEditStore.

(** ** The further theorems at concrete inputs *)


Lemma getIsSafe_union_usual :
  getIsSafeBrowsingLevel usual_bit (Z.lor 1 2) = true
  ∧ getIsSafeBrowsingLevel usual_bit (Z.lor 4 1) = false.
Proof.
  destruct (getIsSafe_union usual_bit) as (Hsafe & Hunsafe).
  split.
  - apply (Hsafe 1 2); reflexivity.
  - apply (Hunsafe 4 1). reflexivity.
Defined.

Lemma browsingLevelOr_safe_usual :
  getIsSafeBrowsingLevel usual_bit
    (browsingLevelOr usual_bit [None; Some 0; Some 3; Some 2]) = true.
Proof.
  apply (browsingLevelOr_safe usual_bit usual_bit_inj).
  intros v Hv Hne. repeat (apply elem_of_cons in Hv as [Hv|Hv]);
    [ discriminate Hv
    | injection Hv as ->; done
    | injection Hv as ->; reflexivity
    | injection Hv as ->; reflexivity
    | by apply elem_of_nil in Hv ].
Defined.

Lemma reverse_forward_mapping_usual :
  getNsfwLeveLDeprecatedReverseMapping usual_bit
    (nsfwLevelMapDeprecated usual_bit NsfwLevelDeprecated.Mature)
    = NsfwLevelDeprecated.Mature
  ∧ getNsfwLeveLDeprecatedReverseMapping usual_bit 24 = NsfwLevelDeprecated.None.
Proof.
  destruct (reverse_forward_mapping usual_bit usual_bit_inj) as (Hback & HX).
  split; [|exact HX]. apply Hback. discriminate.
Defined.

Lemma forward_reverse_mapping_usual :
  Z.land (nsfwLevelMapDeprecated usual_bit
            (getNsfwLeveLDeprecatedReverseMapping usual_bit 16)) 16 = 16
  ∧ nsfwLevelMapDeprecated usual_bit
      (getNsfwLeveLDeprecatedReverseMapping usual_bit 4) = 4
  ∧ nsfwLevelMapDeprecated usual_bit
      (getNsfwLeveLDeprecatedReverseMapping usual_bit (flagifyBrowsingLevel [4; 8]))
    = 1.
Proof.
  destruct (forward_reverse_mapping usual_bit usual_bit_inj)
    as (Hbit & Hsame & _ & Hmask).
  split; [exact (Hbit NsfwLevel.XXX)|]. split.
  - apply (Hsame NsfwLevel.R); discriminate.
  - apply (Hmask [4; 8] NsfwLevel.R NsfwLevel.X); [discriminate|left|right; left].
Defined.

Lemma table_keys_usual :
  browsingLevelLabels usual_bit !! 32 = Some "Blocked"%string
  ∧ browsingLevelDescriptions usual_bit !! 32 = None
  ∧ browsingLevelLabels usual_bit !! 0 = None.
Proof.
  destruct (table_keys usual_bit usual_bit_inj)
    as (_ & _ & _ & Hlabel & Hdescription & _ & Hzero).
  split; [exact Hlabel|]. split; [exact Hdescription|exact Hzero].
Defined.

Lemma red_iff_not_safe_usual :
  (color <$> votableTagColors usual_bit !! 8 = Some "red"%string ↔
   getIsSafeBrowsingLevel usual_bit 8 = false)
  ∧ getIsSafeBrowsingLevel usual_bit 32 = true.
Proof.
  destruct (red_iff_not_safe usual_bit usual_bit_inj) as (Hred & _ & Hblocked).
  split; [|exact Hblocked].
  apply (Hred NsfwLevel.X). unfold ranks. compute_done.
Defined.

Lemma unmount_other_witness :
  3 ≠ 1
  ∧ PageModal.unmount 3 (PageModal.mount 1 [0; 3; 2]) = [0; 2; 1]
  ∧ PageModal.unmount 3 (PageModal.unmount 1 [1; 3; 2])
    = PageModal.unmount 1 (PageModal.unmount 3 [1; 3; 2]).
Proof.
  assert (3 ≠ 1) as Hne by lia.
  destruct (unmount_other 3 1 [0; 3; 2] Hne) as (Hkeep & _ & _).
  destruct (unmount_other 3 1 [1; 3; 2] Hne) as (_ & _ & Hcomm).
  split; [exact Hne|]. split; [exact Hkeep|exact Hcomm].
Defined.

(** A store over images that are their own [id]; no two objects are the
    same. *)
Lemma updateImage_witness :
  PostEdit.updateImage (PostImage:=Z) (PostParams:=Z) (Media:=unit) id 11
    (λ d, {| PostEdit.image := PostEdit.image d; PostEdit.index := 7 |})
    (PostEdit.createContextStore
       (Some {| PostEdit.params := 1; PostEdit.post_images := [10; 11; 11] |}))
  = {| PostEdit.post :=
         Some {| PostEdit.params := 1; PostEdit.post_images := [10; 11; 11] |};
       PostEdit.images :=
         [ PostEdit.added {| PostEdit.image := 10; PostEdit.index := 0 |};
           PostEdit.added {| PostEdit.image := 11; PostEdit.index := 7 |};
           PostEdit.added {| PostEdit.image := 11; PostEdit.index := 2 |} ];
       PostEdit.isReordering := false |}.
Proof.
  set (cb := λ d : PostEdit.PostEditImageDetail Z,
         {| PostEdit.image := PostEdit.image d; PostEdit.index := 7 |}).
  set (state := PostEdit.createContextStore (Media:=unit)
         (Some {| PostEdit.params := 1; PostEdit.post_images := [10; 11; 11] |})).
  destruct (updateImage_spec (Media:=unit) (PostParams:=Z) id 11 cb state)
    as (_ & Hfirst & Hpost & Hflag & _).
  specialize (Hfirst
    [PostEdit.added {| PostEdit.image := 10; PostEdit.index := 0 |}]
    {| PostEdit.image := 11; PostEdit.index := 1 |}
    [PostEdit.added {| PostEdit.image := 11; PostEdit.index := 2 |}]
    eq_refl eq_refl).
  destruct (PostEdit.updateImage id 11 cb state) as [p imgs flag].
  simpl in Hfirst, Hpost, Hflag. rewrite Hpost, Hflag, Hfirst; [reflexivity|].
  intros d' [Hd|Hd%elem_of_nil]%elem_of_cons; [|done].
  injection Hd as ->. simpl. lia.
Defined.

Lemma didUpdate_same_post_witness :
  PostEdit.images
    (PostEdit.didUpdate (PostImage:=Z) (PostParams:=Z) (Media:=unit)
       id (λ _ _, false)
       (Some {| PostEdit.params := 1; PostEdit.post_images := [10; 11; 12] |})
       (PostEdit.createContextStore
          (Some {| PostEdit.params := 1; PostEdit.post_images := [10; 11] |})))
  = [PostEdit.added {| PostEdit.image := 10; PostEdit.index := 0 |}].
Proof.
  destruct (didUpdate_same_post (Media:=unit) id (λ _ _, false)
              {| PostEdit.params := 1; PostEdit.post_images := [10; 11] |}
              {| PostEdit.params := 1; PostEdit.post_images := [10; 11; 12] |}
              (PostEdit.createContextStore
                 (Some {| PostEdit.params := 1;
                          PostEdit.post_images := [10; 11] |}))
              eq_refl eq_refl) as (Hmerged & _ & _).
  exact Hmerged.
Defined.
